(** * Real-time voice console: audio pipeline and event handling

    A shallow embedding of [real_time_voice/voice_console.py]:
    the [AudioProcessor] (capture, transmit and playback lines with their
    worker threads) and the [BasicVoiceAssistant] event handler, followed
    by the properties of the pipeline.

    Conventions.
    - Python [bytes] are [list byte]; Python [str] is [string].
    - A truthiness test [if x] on bytes or on a string is "x is not empty".
    - The mutable objects live in one [World]; every method is a function
      in the monad [M], which threads the world and may raise.  A raise
      keeps the mutations made before it, as in Python.
    - What the program does to its collaborators (audio device, connection,
      logger, console, threads) is appended to the world's [trace].
    - One iteration of a worker thread's loop is one atomic [Tick]; the
      scheduler is an arbitrary list of ticks.
    - A coroutine handed to the event loop from a worker thread runs
      later, when the loop takes its turn: handing over and running are
      two steps, and two effects in the trace. *)

From Stdlib Require Import List String Ascii Bool NArith ZArith Arith Lia QArith.
From Stdlib Require Import Strings.Byte.
Import ListNotations.

Local Close Scope Q_scope.
Local Open Scope string_scope.
Local Open Scope list_scope.

Set Implicit Arguments.

(** ** Bytes and truthiness *)

Definition bytes := list byte.

Definition nonempty_bytes (b : bytes) : bool :=
  match b with [] => false | _ :: _ => true end.

Definition nonempty_str (s : string) : bool :=
  match s with EmptyString => false | String _ _ => true end.

(** ** Transport encoding

    [base64.b64encode(audio_data).decode("utf-8")]: the standard base64
    alphabet with [=] padding (RFC 4648, section 4), three bytes to four
    characters. *)

Module Base64.

Definition alphabet : list ascii :=
  list_ascii_of_string
    "ABCDEFGHIJKLMNOPQRSTUVWXYZabcdefghijklmnopqrstuvwxyz0123456789+/".

Definition pad : ascii := "="%char.

Definition char_of (n : N) : ascii := nth (N.to_nat n) alphabet pad.

Fixpoint find_index (c : ascii) (l : list ascii) (i : N) : option N :=
  match l with
  | [] => None
  | x :: l' => if Ascii.eqb c x then Some i else find_index c l' (N.succ i)
  end.

Definition index_of (c : ascii) : option N := find_index c alphabet 0.

(** The values a character of the alphabet stands for. *)
Definition sextets : list N := map N.of_nat (seq 0 64).

(** The four sextets of a group; a missing byte counts as zero. *)
Definition sextet0 (x : N) : N := (x / 4)%N.
Definition sextet1 (x y : N) : N := ((x mod 4) * 16 + y / 16)%N.
Definition sextet2 (y z : N) : N := ((y mod 16) * 4 + z / 64)%N.
Definition sextet3 (z : N) : N := (z mod 64)%N.

Fixpoint b64encode (data : bytes) : string :=
  match data with
  | [] => EmptyString
  | [a] =>
      let x := Byte.to_N a in
      String (char_of (sextet0 x)) (String (char_of (sextet1 x 0))
        (String pad (String pad EmptyString)))
  | [a; b] =>
      let x := Byte.to_N a in
      let y := Byte.to_N b in
      String (char_of (sextet0 x)) (String (char_of (sextet1 x y))
        (String (char_of (sextet2 y 0)) (String pad EmptyString)))
  | a :: b :: c :: rest =>
      let x := Byte.to_N a in
      let y := Byte.to_N b in
      let z := Byte.to_N c in
      String (char_of (sextet0 x)) (String (char_of (sextet1 x y))
        (String (char_of (sextet2 y z)) (String (char_of (sextet3 z))
          (b64encode rest))))
  end.

Definition byte_of (n : N) : byte :=
  match Byte.of_N (n mod 256) with
  | Some b => b
  | None => Byte.x00
  end.

Definition octet0 (s0 s1 : N) : byte := byte_of (s0 * 4 + s1 / 16).
Definition octet1 (s1 s2 : N) : byte := byte_of ((s1 mod 16) * 16 + s2 / 4).
Definition octet2 (s2 s3 : N) : byte := byte_of ((s2 mod 4) * 64 + s3).

Definition is_empty (s : string) : bool :=
  match s with EmptyString => true | String _ _ => false end.

(** Modelled from the spec: the decoding of a transport payload back to
    PCM bytes.  The source never decodes (inbound deltas reach the event
    handler as bytes); this is the inverse the spec's round trip speaks of,
    base64 with the standard alphabet, padding accepted only in the last
    group of four.  [None] is a malformed payload. *)
Fixpoint b64decode (s : string) : option bytes :=
  match s with
  | EmptyString => Some []
  | String c1 (String c2 (String c3 (String c4 rest))) =>
      match index_of c1, index_of c2 with
      | Some s0, Some s1 =>
          if Ascii.eqb c3 pad then
            if Ascii.eqb c4 pad && is_empty rest
            then Some [octet0 s0 s1] else None
          else
            match index_of c3 with
            | None => None
            | Some s2 =>
                if Ascii.eqb c4 pad then
                  if is_empty rest
                  then Some [octet0 s0 s1; octet1 s1 s2] else None
                else
                  match index_of c4 with
                  | None => None
                  | Some s3 =>
                      match b64decode rest with
                      | None => None
                      | Some tl =>
                          Some (octet0 s0 s1 :: octet1 s1 s2 :: octet2 s2 s3 :: tl)
                      end
                  end
            end
      | _, _ => None
      end
  | _ => None
  end.

End Base64.

(** ** Session configuration ([_setup_session]) *)

Inductive Modality := TEXT | AUDIO.
Inductive AudioFormat := PCM16.

Record ServerVad := {
  threshold : Q;
  prefix_padding_ms : nat;
  silence_duration_ms : nat
}.

(** [Union[AzureStandardVoice, str]] *)
Inductive VoiceConfig :=
| AzureStandardVoice (name : string) (type : string)
| VoiceName (voice : string).

Record RequestSession := {
  modalities : list Modality;
  instructions : string;
  voice : VoiceConfig;
  input_audio_format : AudioFormat;
  output_audio_format : AudioFormat;
  turn_detection : ServerVad
}.

Definition hyphen : ascii := "-"%char.

(** [s.startswith(p)] *)
Definition startswith (s p : string) : bool := String.prefix p s.

(** [sub in s] *)
Fixpoint str_in (sub s : string) : bool :=
  String.prefix sub s ||
  match s with
  | EmptyString => false
  | String _ s' => str_in sub s'
  end.

Definition is_azure_voice (v : string) : bool :=
  startswith v "en-US-" || startswith v "en-CA-" || str_in "-" v.

Definition voice_config (v : string) : VoiceConfig :=
  if is_azure_voice v
  then AzureStandardVoice v "azure-standard"
  else VoiceName v.

Definition turn_detection_config : ServerVad :=
  {| threshold := (1 # 2)%Q; prefix_padding_ms := 300; silence_duration_ms := 500 |}.

Definition session_config (v instr : string) : RequestSession :=
  {| modalities := [TEXT; AUDIO];
     instructions := instr;
     voice := voice_config v;
     input_audio_format := PCM16;
     output_audio_format := PCM16;
     turn_detection := turn_detection_config |}.

(** ** The world: the [AudioProcessor] object, the assistant's flags,
    the live worker threads, the coroutines waiting on the event loop and
    the trace of effects *)

Inductive Level := DEBUG | INFO | ERROR.

Inductive Worker := CaptureWorker | SendWorker | PlaybackWorker.

(** An exception is represented by its message. *)
Definition Exn := string.

Inductive Effect :=
| Log (lvl : Level) (msg : string)             (* logger.debug / info / error *)
| Print (msg : string)                         (* print(...) *)
| OpenInput (h : nat)                          (* audio.open(input=True) returned stream h *)
| OpenOutput (h : nat)                         (* audio.open(output=True) returned stream h *)
| StartStream (h : nat)                        (* stream.start_stream() *)
| StopStream (h : nat)                         (* stream.stop_stream() *)
| CloseStream (h : nat)                        (* stream.close() *)
| ReadFrame (h : nat) (data : bytes)           (* input_stream.read(...) returned data *)
| WriteFrame (h : nat) (data : bytes)          (* output_stream.write(data) *)
| AppendAudio (payload : string)               (* input_audio_buffer.append(audio=payload) scheduled *)
| Transmit (payload : string)                  (* the event loop runs that coroutine: the payload is sent *)
| ResponseCancel                               (* conn.response.cancel() called *)
| SessionUpdate (cfg : RequestSession)         (* conn.session.update(session=cfg) *)
| ThreadStart (t : nat) (k : Worker)           (* threading.Thread(target=...).start() *)
| ThreadJoin (t : nat)                         (* thread.join(timeout=1.0) *)
| Terminate                                    (* audio.terminate() *)
| ExecutorShutdown.                            (* executor.shutdown(wait=True) *)

Record AudioProcessor := {
  is_capturing : bool;
  is_playing : bool;
  input_stream : option nat;
  output_stream : option nat;
  audio_queue : list bytes;
  audio_send_queue : list string;
  capture_thread : option nat;
  playback_thread : option nat;
  send_thread : option nat;
  loop : bool                                  (* self.loop is not None *)
}.

Record World := {
  ap : AudioProcessor;
  session_ready : bool;
  threads : list (nat * Worker);               (* started threads whose loop has not returned *)
  next_id : nat;                               (* identity of the next stream or thread object *)
  trace : list Effect;
  scheduled : list string;                     (* append coroutines handed to the event loop, not yet run *)
  audio_processor : bool                       (* self.audio_processor is not None *)
}.

(** Field assignments. *)

Definition set_is_capturing (v : bool) (a : AudioProcessor) : AudioProcessor :=
  {| is_capturing := v; is_playing := is_playing a;
     input_stream := input_stream a; output_stream := output_stream a;
     audio_queue := audio_queue a; audio_send_queue := audio_send_queue a;
     capture_thread := capture_thread a; playback_thread := playback_thread a;
     send_thread := send_thread a; loop := loop a |}.

Definition set_is_playing (v : bool) (a : AudioProcessor) : AudioProcessor :=
  {| is_capturing := is_capturing a; is_playing := v;
     input_stream := input_stream a; output_stream := output_stream a;
     audio_queue := audio_queue a; audio_send_queue := audio_send_queue a;
     capture_thread := capture_thread a; playback_thread := playback_thread a;
     send_thread := send_thread a; loop := loop a |}.

Definition set_input_stream (v : option nat) (a : AudioProcessor) : AudioProcessor :=
  {| is_capturing := is_capturing a; is_playing := is_playing a;
     input_stream := v; output_stream := output_stream a;
     audio_queue := audio_queue a; audio_send_queue := audio_send_queue a;
     capture_thread := capture_thread a; playback_thread := playback_thread a;
     send_thread := send_thread a; loop := loop a |}.

Definition set_output_stream (v : option nat) (a : AudioProcessor) : AudioProcessor :=
  {| is_capturing := is_capturing a; is_playing := is_playing a;
     input_stream := input_stream a; output_stream := v;
     audio_queue := audio_queue a; audio_send_queue := audio_send_queue a;
     capture_thread := capture_thread a; playback_thread := playback_thread a;
     send_thread := send_thread a; loop := loop a |}.

Definition set_audio_queue (v : list bytes) (a : AudioProcessor) : AudioProcessor :=
  {| is_capturing := is_capturing a; is_playing := is_playing a;
     input_stream := input_stream a; output_stream := output_stream a;
     audio_queue := v; audio_send_queue := audio_send_queue a;
     capture_thread := capture_thread a; playback_thread := playback_thread a;
     send_thread := send_thread a; loop := loop a |}.

Definition set_audio_send_queue (v : list string) (a : AudioProcessor) : AudioProcessor :=
  {| is_capturing := is_capturing a; is_playing := is_playing a;
     input_stream := input_stream a; output_stream := output_stream a;
     audio_queue := audio_queue a; audio_send_queue := v;
     capture_thread := capture_thread a; playback_thread := playback_thread a;
     send_thread := send_thread a; loop := loop a |}.

Definition set_capture_thread (v : option nat) (a : AudioProcessor) : AudioProcessor :=
  {| is_capturing := is_capturing a; is_playing := is_playing a;
     input_stream := input_stream a; output_stream := output_stream a;
     audio_queue := audio_queue a; audio_send_queue := audio_send_queue a;
     capture_thread := v; playback_thread := playback_thread a;
     send_thread := send_thread a; loop := loop a |}.

Definition set_playback_thread (v : option nat) (a : AudioProcessor) : AudioProcessor :=
  {| is_capturing := is_capturing a; is_playing := is_playing a;
     input_stream := input_stream a; output_stream := output_stream a;
     audio_queue := audio_queue a; audio_send_queue := audio_send_queue a;
     capture_thread := capture_thread a; playback_thread := v;
     send_thread := send_thread a; loop := loop a |}.

Definition set_send_thread (v : option nat) (a : AudioProcessor) : AudioProcessor :=
  {| is_capturing := is_capturing a; is_playing := is_playing a;
     input_stream := input_stream a; output_stream := output_stream a;
     audio_queue := audio_queue a; audio_send_queue := audio_send_queue a;
     capture_thread := capture_thread a; playback_thread := playback_thread a;
     send_thread := v; loop := loop a |}.

Definition set_loop (v : bool) (a : AudioProcessor) : AudioProcessor :=
  {| is_capturing := is_capturing a; is_playing := is_playing a;
     input_stream := input_stream a; output_stream := output_stream a;
     audio_queue := audio_queue a; audio_send_queue := audio_send_queue a;
     capture_thread := capture_thread a; playback_thread := playback_thread a;
     send_thread := send_thread a; loop := v |}.

Definition set_ap (a : AudioProcessor) (w : World) : World :=
  {| ap := a; session_ready := session_ready w; threads := threads w;
     next_id := next_id w; trace := trace w;
     scheduled := scheduled w; audio_processor := audio_processor w |}.

Definition set_session_ready (v : bool) (w : World) : World :=
  {| ap := ap w; session_ready := v; threads := threads w;
     next_id := next_id w; trace := trace w;
     scheduled := scheduled w; audio_processor := audio_processor w |}.

Definition set_threads (v : list (nat * Worker)) (w : World) : World :=
  {| ap := ap w; session_ready := session_ready w; threads := v;
     next_id := next_id w; trace := trace w;
     scheduled := scheduled w; audio_processor := audio_processor w |}.

Definition set_next_id (v : nat) (w : World) : World :=
  {| ap := ap w; session_ready := session_ready w; threads := threads w;
     next_id := v; trace := trace w;
     scheduled := scheduled w; audio_processor := audio_processor w |}.

Definition set_trace (v : list Effect) (w : World) : World :=
  {| ap := ap w; session_ready := session_ready w; threads := threads w;
     next_id := next_id w; trace := v;
     scheduled := scheduled w; audio_processor := audio_processor w |}.

Definition set_scheduled (v : list string) (w : World) : World :=
  {| ap := ap w; session_ready := session_ready w; threads := threads w;
     next_id := next_id w; trace := trace w;
     scheduled := v; audio_processor := audio_processor w |}.

Definition set_audio_processor (v : bool) (w : World) : World :=
  {| ap := ap w; session_ready := session_ready w; threads := threads w;
     next_id := next_id w; trace := trace w;
     scheduled := scheduled w; audio_processor := v |}.

(** ** The monad of methods: state and exceptions *)

(** The exceptions that are no [Exception]: [except Exception] lets them
    pass. *)
Inductive BaseExc := KeyboardInterrupt | CancelledError.

Inductive Outcome (A : Type) :=
| Return (a : A)
| Raise (e : Exn)                              (* an Exception, with its message *)
| Escape (b : BaseExc).

Arguments Return {A} a.
Arguments Raise {A} e.
Arguments Escape {A} b.

Definition M (A : Type) : Type := World -> Outcome A * World.

Definition ret {A} (a : A) : M A := fun w => (Return a, w).

Definition raise {A} (e : Exn) : M A := fun w => (Raise e, w).

Definition escape {A} (b : BaseExc) : M A := fun w => (Escape b, w).

Definition bind {A B} (m : M A) (k : A -> M B) : M B :=
  fun w =>
    match m w with
    | (Return a, w') => k a w'
    | (Raise e, w') => (Raise e, w')
    | (Escape b, w') => (Escape b, w')
    end.

(** [try: body except Exception as e: handler e] *)
Definition try_except {A} (body : M A) (handler : Exn -> M A) : M A :=
  fun w =>
    match body w with
    | (Return a, w') => (Return a, w')
    | (Raise e, w') => handler e w'
    | (Escape b, w') => (Escape b, w')
    end.

(** [try: body except KeyboardInterrupt: on_interrupt
    except Exception as e: handler e] *)
Definition try_except_interrupt {A} (body : M A) (on_interrupt : M A)
    (handler : Exn -> M A) : M A :=
  fun w =>
    match body w with
    | (Return a, w') => (Return a, w')
    | (Escape KeyboardInterrupt, w') => on_interrupt w'
    | (Raise e, w') => handler e w'
    | (Escape CancelledError, w') => (Escape CancelledError, w')
    end.

Declare Scope method_scope.
Delimit Scope method_scope with method.
Notation "x <- m ;; k" := (bind m (fun x => k))
  (at level 61, m at next level, right associativity) : method_scope.
Notation "m ;; k" := (bind m (fun _ => k))
  (at level 61, right associativity) : method_scope.
Local Open Scope method_scope.

(** [self.field] *)
Definition self {A} (field : AudioProcessor -> A) : M A :=
  fun w => (Return (field (ap w)), w).

(** [self.field = v] *)
Definition assign (f : AudioProcessor -> AudioProcessor) : M unit :=
  fun w => (Return tt, set_ap (f (ap w)) w).

Definition emit (e : Effect) : M unit :=
  fun w => (Return tt, set_trace (trace w ++ [e]) w).

Definition log (lvl : Level) (msg : string) : M unit := emit (Log lvl msg).

Definition print (msg : string) : M unit := emit (Print msg).

(** A new stream or thread object. *)
Definition fresh : M nat :=
  fun w => (Return (next_id w), set_next_id (S (next_id w)) w).

Definition run {A} (m : M A) (w : World) : World := snd (m w).

Definition outcome {A} (m : M A) (w : World) : Outcome A := fst (m w).

(** ** Collaborators

    What the audio device and the connection answer during one call of a
    method: [None] is success, [Some e] is the exception raised.  Stopping
    and closing a stream, joining a thread and starting a thread do not
    fail.  A join is bounded by its timeout and the caller then goes on
    whatever the thread does: it is an effect in the trace and no more;
    the thread itself returns at its next iteration, when it finds the
    running flag down. *)

Record Env := {
  open_input_raises : option Exn;              (* audio.open(input=True, ...) *)
  start_stream_raises : option Exn;            (* input_stream.start_stream() *)
  open_output_raises : option Exn;             (* audio.open(output=True, ...) *)
  cancel_raises : option Exn                   (* conn.response.cancel() *)
}.

Definition audio_open_input (env : Env) : M nat :=
  match open_input_raises env with
  | Some e => raise e
  | None => h <- fresh ;; emit (OpenInput h) ;; ret h
  end.

Definition audio_open_output (env : Env) : M nat :=
  match open_output_raises env with
  | Some e => raise e
  | None => h <- fresh ;; emit (OpenOutput h) ;; ret h
  end.

Definition start_stream (env : Env) (h : nat) : M unit :=
  match start_stream_raises env with
  | Some e => raise e
  | None => emit (StartStream h)
  end.

Definition response_cancel (env : Env) : M unit :=
  emit ResponseCancel ;;
  match cancel_raises env with
  | Some e => raise e
  | None => ret tt
  end.

(** [thread.start()] for the thread object [t] with target [k]. *)
Definition thread_start (t : nat) (k : Worker) : M unit :=
  (fun w => (Return tt, set_threads (threads w ++ [(t, k)]) w)) ;;
  emit (ThreadStart t k).

Definition worker_eqb (a b : Worker) : bool :=
  match a, b with
  | CaptureWorker, CaptureWorker => true
  | SendWorker, SendWorker => true
  | PlaybackWorker, PlaybackWorker => true
  | _, _ => false
  end.

Definition is_thread (t : nat) (k : Worker) (p : nat * Worker) : bool :=
  Nat.eqb (fst p) t && worker_eqb (snd p) k.

Definition alive (t : nat) (k : Worker) (w : World) : bool :=
  existsb (is_thread t k) (threads w).

(** The thread's target function returns. *)
Definition thread_exit (t : nat) (k : Worker) : M unit :=
  fun w => (Return tt, set_threads (filter (fun p => negb (is_thread t k p)) (threads w)) w).

(** [while not q.empty(): q.get_nowait()] *)
Fixpoint drain {A} (q : list A) : list A :=
  match q with
  | [] => []
  | _ :: q' => drain q'
  end.

(** ** AudioProcessor *)

Definition init_audio_processor : AudioProcessor :=
  {| is_capturing := false; is_playing := false;
     input_stream := None; output_stream := None;
     audio_queue := []; audio_send_queue := [];
     capture_thread := None; playback_thread := None; send_thread := None;
     loop := false |}.

Definition start_capture (env : Env) : M unit :=
  c <- self is_capturing ;;
  if c then ret tt else
  assign (set_loop true) ;;
  assign (set_is_capturing true) ;;
  try_except
    (h <- audio_open_input env ;;
     assign (set_input_stream (Some h)) ;;
     start_stream env h ;;
     t <- fresh ;;
     assign (set_capture_thread (Some t)) ;;
     thread_start t CaptureWorker ;;
     t' <- fresh ;;
     assign (set_send_thread (Some t')) ;;
     thread_start t' SendWorker ;;
     log INFO "Started audio capture")
    (fun e =>
       log ERROR ("Failed to start audio capture: " ++ e) ;;
       assign (set_is_capturing false) ;;
       raise e).

Definition stop_capture : M unit :=
  c <- self is_capturing ;;
  if negb c then ret tt else
  assign (set_is_capturing false) ;;
  s <- self input_stream ;;
  match s with
  | Some h =>
      emit (StopStream h) ;; emit (CloseStream h) ;;
      assign (set_input_stream None)
  | None => ret tt
  end ;;
  ct <- self capture_thread ;;
  match ct with Some t => emit (ThreadJoin t) | None => ret tt end ;;
  st <- self send_thread ;;
  match st with Some t => emit (ThreadJoin t) | None => ret tt end ;;
  q <- self audio_send_queue ;;
  assign (set_audio_send_queue (drain q)) ;;
  log INFO "Stopped audio capture".

Definition start_playback (env : Env) : M unit :=
  p <- self is_playing ;;
  if p then ret tt else
  assign (set_is_playing true) ;;
  try_except
    (h <- audio_open_output env ;;
     assign (set_output_stream (Some h)) ;;
     t <- fresh ;;
     assign (set_playback_thread (Some t)) ;;
     thread_start t PlaybackWorker ;;
     log INFO "Audio playback system ready")
    (fun e =>
       log ERROR ("Failed to initialize audio playback: " ++ e) ;;
       assign (set_is_playing false) ;;
       raise e).

Definition queue_audio (audio_data : bytes) : M unit :=
  p <- self is_playing ;;
  if p then
    q <- self audio_queue ;;
    assign (set_audio_queue (q ++ [audio_data]))
  else ret tt.

Definition stop_playback : M unit :=
  p <- self is_playing ;;
  if negb p then ret tt else
  assign (set_is_playing false) ;;
  q <- self audio_queue ;;
  assign (set_audio_queue (drain q)) ;;
  s <- self output_stream ;;
  match s with
  | Some h =>
      emit (StopStream h) ;; emit (CloseStream h) ;;
      assign (set_output_stream None)
  | None => ret tt
  end ;;
  pt <- self playback_thread ;;
  match pt with Some t => emit (ThreadJoin t) | None => ret tt end ;;
  log INFO "Stopped audio playback".

Definition cleanup : M unit :=
  stop_capture ;;
  stop_playback ;;
  emit Terminate ;;
  emit ExecutorShutdown ;;
  log INFO "Audio processor cleaned up".

(** ** Worker threads

    One tick is one iteration of the thread's [while] loop, from the test
    of the loop condition to the end of the body.  The tick carries what
    the blocking call of that iteration does. *)

Inductive Tick :=
| CaptureTick (t : nat) (r : Exn + bytes)      (* input_stream.read raises, or returns a frame *)
| SendTick (t : nat) (r : option Exn)          (* run_coroutine_threadsafe raises, or not *)
| PlaybackTick (t : nat) (r : option Exn).     (* output_stream.write raises, or not *)

(** One iteration of the loop of [_capture_audio_thread]. *)
Definition _capture_audio_thread (t : nat) (r : Exn + bytes) : M unit :=
  c <- self is_capturing ;;
  s <- self input_stream ;;
  match c, s with
  | true, Some h =>
      match r with
      | inr audio_data =>
          emit (ReadFrame h audio_data) ;;
          c' <- self is_capturing ;;
          if nonempty_bytes audio_data && c' then
            let audio_base64 := Base64.b64encode audio_data in
            q <- self audio_send_queue ;;
            assign (set_audio_send_queue (q ++ [audio_base64]))
          else ret tt
      | inl e =>
          c' <- self is_capturing ;;
          (if c' then log ERROR ("Error in audio capture: " ++ e) else ret tt) ;;
          thread_exit t CaptureWorker
      end
  | _, _ => thread_exit t CaptureWorker
  end.

(** [asyncio.run_coroutine_threadsafe(coro, self.loop)] returning: the
    coroutine joins those the event loop will run.  The future is dropped
    ("Don't wait for completion"). *)
Definition schedule (payload : string) : M unit :=
  emit (AppendAudio payload) ;;
  (fun w => (Return tt, set_scheduled (scheduled w ++ [payload]) w)).

(** One iteration of the loop of [_send_audio_thread]; an empty queue is
    [queue.Empty] after the timeout, and the loop continues. *)
Definition _send_audio_thread (t : nat) (r : option Exn) : M unit :=
  c <- self is_capturing ;;
  if negb c then thread_exit t SendWorker else
  q <- self audio_send_queue ;;
  match q with
  | [] => ret tt
  | audio_base64 :: q' =>
      assign (set_audio_send_queue q') ;;
      c' <- self is_capturing ;;
      l <- self loop ;;
      if nonempty_str audio_base64 && c' && l then
        match r with
        | None => schedule audio_base64
        | Some e =>
            c'' <- self is_capturing ;;
            (if c'' then log ERROR ("Error sending audio: " ++ e) else ret tt) ;;
            thread_exit t SendWorker
        end
      else ret tt
  end.

(** One iteration of the loop of [_playback_audio_thread]. *)
Definition _playback_audio_thread (t : nat) (r : option Exn) : M unit :=
  p <- self is_playing ;;
  if negb p then thread_exit t PlaybackWorker else
  q <- self audio_queue ;;
  match q with
  | [] => ret tt
  | audio_data :: q' =>
      assign (set_audio_queue q') ;;
      s <- self output_stream ;;
      p' <- self is_playing ;;
      match nonempty_bytes audio_data, s, p' with
      | true, Some h, true =>
          match r with
          | None => emit (WriteFrame h audio_data)
          | Some e =>
              p'' <- self is_playing ;;
              (if p'' then log ERROR ("Error in audio playback: " ++ e) else ret tt) ;;
              thread_exit t PlaybackWorker
          end
      | _, _, _ => ret tt
      end
  end.

(** A thread that has returned, or was never started, does nothing. *)
Definition tick (k : Tick) : M unit :=
  fun w =>
    match k with
    | CaptureTick t r =>
        if alive t CaptureWorker w then _capture_audio_thread t r w else (Return tt, w)
    | SendTick t r =>
        if alive t SendWorker w then _send_audio_thread t r w else (Return tt, w)
    | PlaybackTick t r =>
        if alive t PlaybackWorker w then _playback_audio_thread t r w else (Return tt, w)
    end.

Definition run_ticks (ks : list Tick) (w : World) : World :=
  fold_left (fun w k => run (tick k) w) ks w.

(** ** BasicVoiceAssistant *)

(** The server events the handler distinguishes, with the fields it
    reads.  [delta] is the audio of the event as the connection hands it
    to the handler: the raw PCM bytes, which the connection has decoded
    from the transport form of the wire. *)
Inductive Event :=
| SESSION_UPDATED (session_id : string)
| INPUT_AUDIO_BUFFER_SPEECH_STARTED
| INPUT_AUDIO_BUFFER_SPEECH_STOPPED
| RESPONSE_CREATED
| RESPONSE_AUDIO_DELTA (delta : bytes)
| RESPONSE_AUDIO_DONE
| RESPONSE_DONE
| ERROR_EVENT (message : string)
| CONVERSATION_ITEM_CREATED (item_id : string)
| OTHER (type_name : string).

(** [event.type] as the log line shows it: the type string of the
    protocol, the value of the [ServerEventType] member. *)
Definition event_type (ev : Event) : string :=
  match ev with
  | SESSION_UPDATED _ => "session.updated"
  | INPUT_AUDIO_BUFFER_SPEECH_STARTED => "input_audio_buffer.speech_started"
  | INPUT_AUDIO_BUFFER_SPEECH_STOPPED => "input_audio_buffer.speech_stopped"
  | RESPONSE_CREATED => "response.created"
  | RESPONSE_AUDIO_DELTA _ => "response.audio.delta"
  | RESPONSE_AUDIO_DONE => "response.audio.done"
  | RESPONSE_DONE => "response.done"
  | ERROR_EVENT _ => "error"
  | CONVERSATION_ITEM_CREATED _ => "conversation.item.created"
  | OTHER n => n
  end.

(** [_setup_session] *)
Definition _setup_session (v instr : string) : M unit :=
  log INFO "Setting up voice conversation session..." ;;
  emit (SessionUpdate (session_config v instr)) ;;
  log INFO "Session configuration sent".

(** [_handle_event], with the audio processor and the connection set, as
    [start] leaves them before any event is read.  The pictographs of the
    messages are left out. *)
Definition _handle_event (env : Env) (event : Event) : M unit :=
  log DEBUG ("Received event: " ++ event_type event) ;;
  match event with
  | SESSION_UPDATED session_id =>
      log INFO ("Session ready: " ++ session_id) ;;
      (fun w => (Return tt, set_session_ready true w)) ;;
      start_capture env
  | INPUT_AUDIO_BUFFER_SPEECH_STARTED =>
      log INFO "User started speaking - stopping playback" ;;
      print "Listening..." ;;
      stop_playback ;;
      try_except
        (response_cancel env)
        (fun e => log DEBUG ("No response to cancel: " ++ e))
  | INPUT_AUDIO_BUFFER_SPEECH_STOPPED =>
      log INFO "User stopped speaking" ;;
      print "Processing..." ;;
      start_playback env
  | RESPONSE_CREATED =>
      log INFO "Assistant response created"
  | RESPONSE_AUDIO_DELTA delta =>
      log DEBUG "Received audio delta" ;;
      queue_audio delta
  | RESPONSE_AUDIO_DONE =>
      log INFO "Assistant finished speaking" ;;
      print "Ready for next input..."
  | RESPONSE_DONE =>
      log INFO "Response complete"
  | ERROR_EVENT message =>
      log ERROR ("VoiceLive error: " ++ message) ;;
      print ("Error: " ++ message)
  | CONVERSATION_ITEM_CREATED item_id =>
      log DEBUG ("Conversation item created: " ++ item_id)
  | OTHER _ =>
      log DEBUG ("Unhandled event type: " ++ event_type event)
  end.

(** ** Runs

    The world in which the assistant holds a new audio processor, as
    [AudioProcessor.__init__] leaves it, with the session not yet ready;
    and everything that can happen to it afterwards: a method of the audio
    processor is called, an event is handled, a worker thread makes one
    iteration, the event loop runs a coroutine handed to it. *)

Definition init_world : World :=
  {| ap := init_audio_processor;
     session_ready := false;
     threads := [];
     next_id := 0;
     trace := [Log INFO "AudioProcessor initialized with 24kHz PCM16 mono audio"];
     scheduled := [];
     audio_processor := true |}.

(** The event loop takes its turn and runs the oldest coroutine handed to
    it by the send thread; [r] is what [input_audio_buffer.append] does:
    it sends the payload, or raises.  Its exception stays in the future
    that nobody reads. *)
Definition run_scheduled (r : option Exn) : M unit :=
  fun w =>
    match scheduled w with
    | [] => (Return tt, w)
    | payload :: rest =>
        match r with
        | None => emit (Transmit payload) (set_scheduled rest w)
        | Some _ => (Return tt, set_scheduled rest w)
        end
    end.

Inductive Action :=
| CallStartCapture (env : Env)
| CallStopCapture
| CallStartPlayback (env : Env)
| CallQueueAudio (audio_data : bytes)
| CallStopPlayback
| CallCleanup
| Handle (env : Env) (event : Event)
| Step (k : Tick)
| LoopRuns (r : option Exn).

Definition act (a : Action) : M unit :=
  match a with
  | CallStartCapture env => start_capture env
  | CallStopCapture => stop_capture
  | CallStartPlayback env => start_playback env
  | CallQueueAudio d => queue_audio d
  | CallStopPlayback => stop_playback
  | CallCleanup => cleanup
  | Handle env ev => _handle_event env ev
  | Step k => tick k
  | LoopRuns r => run_scheduled r
  end.

Definition exec (acts : list Action) (w : World) : World :=
  fold_left (fun w a => run (act a) w) acts w.

(** ** Reading a trace *)

(** The effects added to the trace between two worlds. *)
Definition since (w w' : World) : list Effect :=
  skipn (List.length (trace w)) (trace w').

(** Frames written to the output device, in order. *)
Definition played (tr : list Effect) : list bytes :=
  flat_map (fun e => match e with WriteFrame _ d => [d] | _ => [] end) tr.

(** Payloads handed over for sending ([input_audio_buffer.append]
    scheduled on the event loop), in order. *)
Definition sent (tr : list Effect) : list string :=
  flat_map (fun e => match e with AppendAudio p => [p] | _ => [] end) tr.

(** Payloads the event loop has sent on the connection, in order. *)
Definition transmitted (tr : list Effect) : list string :=
  flat_map (fun e => match e with Transmit p => [p] | _ => [] end) tr.

(** Frames read from the input device, in order. *)
Definition frames_read (tr : list Effect) : list bytes :=
  flat_map (fun e => match e with ReadFrame _ d => [d] | _ => [] end) tr.

(** Cancel commands attempted. *)
Definition cancels (tr : list Effect) : nat :=
  List.length (filter (fun e => match e with ResponseCancel => true | _ => false end) tr).

(** Input or output streams opened, and threads started. *)
Definition opened (tr : list Effect) : list nat :=
  flat_map (fun e => match e with OpenInput h | OpenOutput h => [h] | _ => [] end) tr.


(** What a frame becomes on its way to the transmit queue: an empty read
    is skipped, any other is encoded. *)
Definition payloads_of (frames : list bytes) : list string :=
  map Base64.b64encode (filter nonempty_bytes frames).

(** Collaborators that answer every call without raising. *)
Definition quiet : Env :=
  {| open_input_raises := None; start_stream_raises := None;
     open_output_raises := None; cancel_raises := None |}.

(** The device refuses to open the microphone. *)
Definition no_microphone : Env :=
  {| open_input_raises := Some "Invalid input device";
     start_stream_raises := None;
     open_output_raises := None; cancel_raises := None |}.

(** The server has no response in progress to cancel. *)
Definition nothing_to_cancel : Env :=
  {| open_input_raises := None; start_stream_raises := None;
     open_output_raises := None;
     cancel_raises := Some "no active response" |}.

(** What the handler logs after the cancel command. *)
Definition cancel_log (env : Env) : list Effect :=
  match cancel_raises env with
  | Some e => [Log DEBUG ("No response to cancel: " ++ e)]
  | None => []
  end.

(** ** Consistency of the lines

    What every run keeps true of the two queues. *)

(** While capturing, the event loop is stored; no queued payload is empty. *)
Definition transmit_ok (w : World) : Prop :=
  (is_capturing (ap w) = true -> loop (ap w) = true) /\
  Forall (fun p => nonempty_str p = true) (audio_send_queue (ap w)).

(** While playback is inactive, nothing is queued for it. *)
Definition playback_ok (w : World) : Prop :=
  is_playing (ap w) = false -> audio_queue (ap w) = [].

(** The trace of [w'] continues the trace of [w]. *)
Definition extends (w w' : World) : Prop :=
  trace w' = trace w ++ since w w'.

(** [l] is [l'] with some elements left out, the order kept. *)
Inductive subseq {A : Type} : list A -> list A -> Prop :=
| subseq_nil : subseq [] []
| subseq_skip (x : A) (l l' : list A) : subseq l l' -> subseq l (x :: l')
| subseq_keep (x : A) (l l' : list A) : subseq l l' -> subseq (x :: l) (x :: l').

(** The scheduling of the send raises in this iteration. *)
Definition send_raises (k : Tick) : bool :=
  match k with SendTick _ (Some _) => true | _ => false end.

(** ** The event loop and the run of the assistant

    What happens to the coroutine in [async for event in conn]: the
    connection yields an event, ends the stream (the end of the list) or
    raises; a [KeyboardInterrupt] is raised inside the coroutine; or the
    task is cancelled while it waits.  The last is what a signal does: the
    handler installed by [main] raises [KeyboardInterrupt] in the event
    loop, not in the coroutine, and [asyncio.run] then cancels the task,
    which receives [CancelledError] at its [await].  In between, worker
    threads iterate and the event loop runs the coroutines handed to it.
    Handlers are atomic: what interrupts the coroutine does so between two
    events. *)

Inductive Incoming :=
| Deliver (env : Env) (event : Event)          (* the connection yields an event *)
| Meanwhile (k : Tick)                         (* a worker iterates while the loop waits *)
| LoopTurn (r : option Exn)                    (* the loop runs a scheduled coroutine *)
| Interrupted                                  (* KeyboardInterrupt raised in the coroutine *)
| Cancelled                                    (* the task is cancelled: CancelledError *)
| ChannelFails (e : Exn).                      (* the connection raises *)

(** [async for event in conn: await self._handle_event(event)] *)
Fixpoint async_for (script : list Incoming) : M unit :=
  match script with
  | [] => ret tt
  | Deliver env event :: rest => _handle_event env event ;; async_for rest
  | Meanwhile k :: rest => tick k ;; async_for rest
  | LoopTurn r :: rest => run_scheduled r ;; async_for rest
  | Interrupted :: _ => escape KeyboardInterrupt
  | Cancelled :: _ => escape CancelledError
  | ChannelFails e :: _ => raise e
  end.

(** [_process_events]: [except KeyboardInterrupt] logs and returns,
    [except Exception] logs and raises again; [CancelledError] passes. *)
Definition _process_events (script : list Incoming) : M unit :=
  try_except_interrupt
    (async_for script)
    (log INFO "Event processing interrupted")
    (fun e => log ERROR ("Error processing events: " ++ e) ;; raise e).

(** What the service answers while the assistant starts. *)
Record Boot := {
  connect_raises : option Exn;                 (* connect(...) *)
  session_update_raises : option Exn           (* conn.session.update(...) *)
}.

(** The world of a [BasicVoiceAssistant] before [start]: no session, no
    thread, nothing logged; the audio processor is created by [start]. *)
Definition boot_world : World :=
  {| ap := init_audio_processor;
     session_ready := false;
     threads := [];
     next_id := 0;
     trace := [];
     scheduled := [];
     audio_processor := false |}.

(** [ap = AudioProcessor(conn); self.audio_processor = ap] *)
Definition new_audio_processor : M unit :=
  assign (fun _ => init_audio_processor) ;;
  log INFO "AudioProcessor initialized with 24kHz PCM16 mono audio" ;;
  (fun w => (Return tt, set_audio_processor true w)).

Definition nl : string := String (ascii_of_nat 10) EmptyString.

(** ["=" * n] *)
Definition rule (n : nat) : string := string_of_list_ascii (repeat "="%char n).

(** [start]; the pictograph of the banner is left out.  Leaving the
    [async with] block closes the connection, which has no state of its
    own here.  Nothing interrupts the coroutine before the event loop is
    entered: [boot] and [env] raise [Exception]s only. *)
Definition start (boot : Boot) (env : Env) (model v instr : string)
    (script : list Incoming) : M unit :=
  try_except_interrupt
    (log INFO ("Connecting to VoiceLive API with model " ++ model) ;;
     match connect_raises boot with
     | Some e => raise e
     | None =>
         new_audio_processor ;;
         match session_update_raises boot with
         | Some e =>
             log INFO "Setting up voice conversation session..." ;;
             raise e
         | None => _setup_session v instr
         end ;;
         start_playback env ;;
         log INFO "Voice assistant ready! Start speaking..." ;;
         print (nl ++ rule 60) ;;
         print "VOICE ASSISTANT READY" ;;
         print "Start speaking to begin conversation" ;;
         print "Press Ctrl+C to exit" ;;
         print (rule 60 ++ nl) ;;
         _process_events script
     end)
    (log INFO "Received interrupt signal, shutting down...")
    (fun e => log ERROR ("Connection error: " ++ e) ;; raise e) ;;
  a <- (fun w => (Return (audio_processor w), w)) ;;
  if a then cleanup else ret tt.

(** ** Reading more of a trace *)

(** The frame an action offers to the playback line. *)
Definition offered (a : Action) : list bytes :=
  match a with
  | CallQueueAudio d => [d]
  | Handle _ (RESPONSE_AUDIO_DELTA d) => [d]
  | _ => []
  end.

(** The output streams open after a trace: opened and not closed since. *)
Definition stream_step (acc : list nat) (e : Effect) : list nat :=
  match e with
  | OpenOutput h => acc ++ [h]
  | CloseStream h => remove Nat.eq_dec h acc
  | _ => acc
  end.

Definition open_outputs (tr : list Effect) : list nat :=
  fold_left stream_step tr [].

Definition current (s : option nat) : list nat :=
  match s with Some h => [h] | None => [] end.

(** Effects on the logger or the console only. *)
Definition is_report (e : Effect) : bool :=
  match e with
  | Log _ _ | Print _ => true
  | _ => false
  end.

(** Events that only inform. *)
Definition informational (ev : Event) : bool :=
  match ev with
  | RESPONSE_CREATED | RESPONSE_AUDIO_DONE | RESPONSE_DONE
  | ERROR_EVENT _ | CONVERSATION_ITEM_CREATED _ | OTHER _ => true
  | _ => false
  end.

(** No playback worker is alive. *)
Definition no_playback_worker (w : World) : bool :=
  forallb (fun p => negb (worker_eqb (snd p) PlaybackWorker)) (threads w).

(** No capture worker is alive. *)
Definition no_capture_worker (w : World) : bool :=
  forallb (fun p => negb (worker_eqb (snd p) CaptureWorker)) (threads w).

(** Actions that do not stop the playback line. *)
Definition leaves_playback_on (a : Action) : bool :=
  match a with
  | CallStopPlayback | CallCleanup
  | Handle _ INPUT_AUDIO_BUFFER_SPEECH_STARTED => false
  | _ => true
  end.

(** Actions that do not stop the capture line. *)
Definition leaves_capture_on (a : Action) : bool :=
  match a with
  | CallStopCapture | CallCleanup => false
  | _ => true
  end.

(** Every stream and thread object was made before [next_id]; the two
    lines do not share a stream. *)
Definition handles_ok (w : World) : Prop :=
  (forall h, input_stream (ap w) = Some h -> h < next_id w) /\
  (forall h, output_stream (ap w) = Some h -> h < next_id w) /\
  (forall a b, input_stream (ap w) = Some a ->
               output_stream (ap w) = Some b -> a <> b).

(** The playback line and the device agree: the stream is set exactly
    while playback is active, and it is the one output stream open. *)
Definition output_ok (w : World) : Prop :=
  (is_playing (ap w) = false -> output_stream (ap w) = None) /\
  (is_playing (ap w) = true -> output_stream (ap w) <> None) /\
  open_outputs (trace w) = current (output_stream (ap w)).

(** The stream [h] is out of reach of the two lines: it is not the
    output stream, and not the input stream of an active capture. *)
Definition out_of_reach (h : nat) (w : World) : Prop :=
  h < next_id w /\
  output_stream (ap w) <> Some h /\
  (is_capturing (ap w) = true -> input_stream (ap w) <> Some h).

(** While capture is inactive, nothing is queued for sending. *)
Definition transmit_idle_ok (w : World) : Prop :=
  is_capturing (ap w) = false -> audio_send_queue (ap w) = [].

(** Every live worker of kind [k] is the thread [t]. *)
Definition only_worker (t : nat) (k : Worker) (w : World) : bool :=
  forallb (fun p => negb (worker_eqb (snd p) k) || Nat.eqb (fst p) t) (threads w).

(** The connection delivers a SessionUpdated event. *)
Definition is_session_updated (i : Incoming) : bool :=
  match i with
  | Deliver _ (SESSION_UPDATED _) => true
  | _ => false
  end.

(** ** The checks made before the assistant runs (the [__main__] block)

    A device description is the dictionary PyAudio returns; a channel
    count is an integer, or [None].  The pictographs of the messages are
    left out. *)

Definition DeviceInfo := list (string * option Z).

(** [info.get(key)] *)
Fixpoint dict_get (key : string) (info : DeviceInfo) : option (option Z) :=
  match info with
  | [] => None
  | (k, v) :: rest => if String.eqb k key then Some v else dict_get key rest
  end.

(** [info.get(key, 0) or 0] *)
Definition channels (key : string) (info : DeviceInfo) : Z :=
  match dict_get key info with
  | Some (Some n) => if Z.eqb n 0 then 0%Z else n
  | Some None => 0%Z
  | None => 0%Z
  end.

(** [[i for i in range(p.get_device_count()) if ... > 0]] *)
Definition devices_with (key : string) (devices : list DeviceInfo) : list nat :=
  filter (fun i => Z.ltb 0 (channels key (nth i devices [])))
         (seq 0 (List.length devices)).

Definition input_devices := devices_with "maxInputChannels".
Definition output_devices := devices_with "maxOutputChannels".

(** [dep.replace("-", "_")] *)
Fixpoint replace_hyphens (s : string) : string :=
  match s with
  | EmptyString => EmptyString
  | String c s' =>
      String (if Ascii.eqb c "-" then "_"%char else c) (replace_hyphens s')
  end.

Definition dependencies : list (string * string) :=
  [("pyaudio", "Audio processing");
   ("azure.ai.voicelive", "Azure VoiceLive SDK");
   ("azure.core", "Azure Core libraries")].

(** The loop over [dependencies.items()]; [importable] tells whether
    [__import__] finds the module. *)
Definition missing_deps (importable : string -> bool) : list string :=
  flat_map (fun d =>
              if importable (replace_hyphens (fst d)) then []
              else [(fst d ++ " (" ++ snd d ++ ")")%string])
           dependencies.

(** How the block ends: the assistant is run, or [sys.exit(code)] after
    the lines printed. *)
Inductive Preflight :=
| RunAssistant
| Exit (code : Z) (printed : list string).

(** The audio system check; [inl e] is an exception of PyAudio. *)
Definition audio_check (audio : Exn + list DeviceInfo) : Preflight :=
  match audio with
  | inl e => Exit 1 [("Audio system check failed: " ++ e)%string]
  | inr devices =>
      match input_devices devices with
      | [] => Exit 1 ["No audio input devices found. Please check your microphone."]
      | _ :: _ =>
          match output_devices devices with
          | [] => Exit 1 ["No audio output devices found. Please check your speakers."]
          | _ :: _ => RunAssistant
          end
      end
  end.

Definition preflight (importable : string -> bool)
    (audio : Exn + list DeviceInfo) : Preflight :=
  match missing_deps importable with
  | [] => audio_check audio
  | missing =>
      Exit 1 (["Missing required dependencies:"]
              ++ map (fun dep => ("  - " ++ dep)%string) missing
              ++ [(nl ++ "Install with: pip install azure-ai-voicelive pyaudio python-dotenv")%string])
  end.

(** Effects of the capture line: the input device opened or read, audio
    appended to the input buffer of the service. *)
Definition uses_microphone (e : Effect) : bool :=
  match e with
  | OpenInput _ | ReadFrame _ _ | AppendAudio _ | Transmit _ => true
  | _ => false
  end.

(** A payload the service can decode: not empty, a whole number of groups
    of four characters, each a character of the alphabet or the padding
    sign. *)
Definition base64_char (c : ascii) : bool :=
  existsb (Ascii.eqb c) Base64.alphabet || Ascii.eqb c Base64.pad.

Definition well_formed_payload (p : string) : bool :=
  nonempty_str p
  && Nat.eqb (String.length p mod 4) 0
  && forallb base64_char (list_ascii_of_string p).


(** The actions a script stands for: what the connection delivers, what
    the workers and the event loop do in between.  What ends the loop
    (an interrupt, a cancellation, a failure of the connection) is no
    action. *)
Definition actions_of (script : list Incoming) : list Action :=
  flat_map (fun i => match i with
                     | Deliver env event => [Handle env event]
                     | Meanwhile k => [Step k]
                     | LoopTurn r => [LoopRuns r]
                     | _ => []
                     end) script.

(** The world in which [start] enters the event loop when the set-up
    succeeds: the audio processor made, the session configured, playback
    started on the stream 0 with the thread 1, the banner printed. *)
Definition ready_world (model v instr : string) : World :=
  {| ap := {| is_capturing := false; is_playing := true;
              input_stream := None; output_stream := Some 0;
              audio_queue := []; audio_send_queue := [];
              capture_thread := None; playback_thread := Some 1;
              send_thread := None; loop := false |};
     session_ready := false;
     threads := [(1, PlaybackWorker)];
     next_id := 2;
     trace := [Log INFO ("Connecting to VoiceLive API with model " ++ model);
               Log INFO "AudioProcessor initialized with 24kHz PCM16 mono audio";
               Log INFO "Setting up voice conversation session...";
               SessionUpdate (session_config v instr);
               Log INFO "Session configuration sent";
               OpenOutput 0;
               ThreadStart 1 PlaybackWorker;
               Log INFO "Audio playback system ready";
               Log INFO "Voice assistant ready! Start speaking...";
               Print (nl ++ rule 60);
               Print "VOICE ASSISTANT READY";
               Print "Start speaking to begin conversation";
               Print "Press Ctrl+C to exit";
               Print (rule 60 ++ nl)];
     scheduled := [];
     audio_processor := true |}.

(** * Properties *)

Ltac Zify.zify_post_hook ::= Z.to_euclidean_division_equations.

(** ** The transport encoding is lossless *)

Module Base64Facts.
Import Base64.

Lemma byte_of_to_N (a : byte) : byte_of (Byte.to_N a) = a.
Proof.
  unfold byte_of.
  rewrite N.mod_small by (pose proof (Byte.to_N_bounded a); lia).
  now rewrite Byte.of_to_N.
Qed.

Lemma to_N_lt (a : byte) : (Byte.to_N a < 256)%N.
Proof. pose proof (Byte.to_N_bounded a); lia. Qed.

Lemma sextet_in (n : N) : (n < 64)%N -> In n sextets.
Proof.
  intros H. unfold sextets. apply in_map_iff.
  exists (N.to_nat n). split; [apply N2Nat.id|].
  apply in_seq. lia.
Qed.

Lemma index_of_char_of (n : N) : (n < 64)%N -> index_of (char_of n) = Some n.
Proof.
  intros H.
  assert (A : forallb (fun k => match index_of (char_of k) with
                                | Some j => N.eqb j k
                                | None => false
                                end) sextets = true) by (vm_compute; reflexivity).
  rewrite forallb_forall in A. specialize (A n (sextet_in H)).
  destruct (index_of (char_of n)); [|discriminate].
  apply N.eqb_eq in A. now subst.
Qed.

Lemma char_of_not_pad (n : N) : (n < 64)%N -> Ascii.eqb (char_of n) pad = false.
Proof.
  intros H.
  assert (A : forallb (fun k => negb (Ascii.eqb (char_of k) pad)) sextets = true)
    by (vm_compute; reflexivity).
  rewrite forallb_forall in A. specialize (A n (sextet_in H)).
  now apply negb_true_iff in A.
Qed.

Lemma sextet0_lt (x : N) : (x < 256)%N -> (sextet0 x < 64)%N.
Proof. unfold sextet0. lia. Qed.

Lemma sextet1_lt (x y : N) : (y < 256)%N -> (sextet1 x y < 64)%N.
Proof. unfold sextet1. lia. Qed.

Lemma sextet2_lt (y z : N) : (z < 256)%N -> (sextet2 y z < 64)%N.
Proof. unfold sextet2. lia. Qed.

Lemma sextet3_lt (z : N) : (sextet3 z < 64)%N.
Proof. unfold sextet3. lia. Qed.

Lemma octet0_sextets (x y : N) :
  (x < 256)%N -> (y < 256)%N -> octet0 (sextet0 x) (sextet1 x y) = byte_of x.
Proof. intros. unfold octet0, sextet0, sextet1. f_equal. lia. Qed.

Lemma octet1_sextets (x y z : N) :
  (y < 256)%N -> (z < 256)%N -> octet1 (sextet1 x y) (sextet2 y z) = byte_of y.
Proof. intros. unfold octet1, sextet1, sextet2. f_equal. lia. Qed.

Lemma octet2_sextets (y z : N) :
  (z < 256)%N -> octet2 (sextet2 y z) (sextet3 z) = byte_of z.
Proof. intros. unfold octet2, sextet2, sextet3. f_equal. lia. Qed.

(** Induction on byte strings three bytes at a time. *)
Lemma bytes_ind3 (P : bytes -> Prop) :
  P [] ->
  (forall a, P [a]) ->
  (forall a b, P [a; b]) ->
  (forall a b c rest, P rest -> P (a :: b :: c :: rest)) ->
  forall data, P data.
Proof.
  intros H0 H1 H2 H3.
  fix IH 1.
  intros [|a [|b [|c rest]]].
  - exact H0.
  - apply H1.
  - apply H2.
  - apply H3, IH.
Qed.

Lemma zero_lt : (0 < 256)%N.
Proof. lia. Qed.

Lemma encode_nonempty (data : bytes) :
  nonempty_bytes data = true -> nonempty_str (b64encode data) = true.
Proof. destruct data as [|a [|b [|c rest]]]; intros H; try discriminate; reflexivity. Qed.

End Base64Facts.

Import Base64Facts.

Example b64encode_Man :
  Base64.b64encode [Byte.x4d; Byte.x61; Byte.x6e] = "TWFu".
Proof. reflexivity. Qed.

Example b64encode_Ma :
  Base64.b64encode [Byte.x4d; Byte.x61] = "TWE=".
Proof. reflexivity. Qed.

Example b64encode_M :
  Base64.b64encode [Byte.x4d] = "TQ==".
Proof. reflexivity. Qed.

(** C9: for every frame (any byte string), encoding it to the transport
    form and decoding it back gives the same bytes. *)
Theorem b64_round_trip (audio_data : bytes) :
  Base64.b64decode (Base64.b64encode audio_data) = Some audio_data.
Proof.
  induction audio_data as [|a|a b|a b c rest IH] using bytes_ind3;
    cbn [Base64.b64encode Base64.b64decode].
  - reflexivity.
  - pose proof (to_N_lt a) as Ha.
    rewrite (index_of_char_of (sextet0_lt Ha)).
    rewrite (index_of_char_of (sextet1_lt _ zero_lt)).
    cbn. now rewrite (octet0_sextets Ha zero_lt), byte_of_to_N.
  - pose proof (to_N_lt a) as Ha. pose proof (to_N_lt b) as Hb.
    rewrite (index_of_char_of (sextet0_lt Ha)).
    rewrite (index_of_char_of (sextet1_lt _ Hb)).
    rewrite (char_of_not_pad (sextet2_lt _ zero_lt)).
    rewrite (index_of_char_of (sextet2_lt _ zero_lt)).
    cbn. rewrite (octet0_sextets Ha Hb), (octet1_sextets _ Hb zero_lt).
    now rewrite !byte_of_to_N.
  - pose proof (to_N_lt a) as Ha. pose proof (to_N_lt b) as Hb.
    pose proof (to_N_lt c) as Hc.
    rewrite (index_of_char_of (sextet0_lt Ha)).
    rewrite (index_of_char_of (sextet1_lt _ Hb)).
    rewrite (char_of_not_pad (sextet2_lt _ Hc)).
    rewrite (index_of_char_of (sextet2_lt _ Hc)).
    rewrite (char_of_not_pad (sextet3_lt _)).
    rewrite (index_of_char_of (sextet3_lt _)).
    rewrite IH, (octet0_sextets Ha Hb), (octet1_sextets _ Hb Hc),
      (octet2_sextets _ Hc).
    now rewrite !byte_of_to_N.
Qed.

(** ** Voice selection in the session configuration *)

Lemma prefix_cons (a b : ascii) (p s : string) :
  String.prefix (String a p) (String b s) = true -> a = b /\ String.prefix p s = true.
Proof.
  cbn. destruct (ascii_dec a b) as [->|]; [auto | discriminate].
Qed.

Lemma str_in_hyphen_iff (v : string) :
  str_in "-" v = true <-> In hyphen (list_ascii_of_string v).
Proof.
  induction v as [|c v IH].
  - cbn. split; [discriminate | tauto].
  - cbn [str_in list_ascii_of_string In]. rewrite orb_true_iff, IH.
    split.
    + intros [H|H]; [left | right; exact H].
      apply prefix_cons in H. symmetry. apply H.
    + intros [H|H]; [left | right; exact H].
      subst c. unfold hyphen. cbn. now destruct v.
Qed.

Lemma region_prefix_has_hyphen (a b : ascii) (p v : string) :
  String.prefix (String a (String b (String "-" p))) v = true ->
  str_in "-" v = true.
Proof.
  intros H. apply str_in_hyphen_iff.
  destruct v as [|c1 [|c2 [|c3 v]]]; try discriminate.
  - apply prefix_cons in H. destruct H as [_ H]. discriminate.
  - apply prefix_cons in H. destruct H as [_ H].
    apply prefix_cons in H. destruct H as [_ H]. discriminate.
  - apply prefix_cons in H. destruct H as [_ H].
    apply prefix_cons in H. destruct H as [_ H].
    apply prefix_cons in H. destruct H as [<- _].
    cbn. auto.
Qed.

Lemma is_azure_voice_hyphen (v : string) : is_azure_voice v = str_in "-" v.
Proof.
  unfold is_azure_voice, startswith.
  destruct (String.prefix "en-US-" v) eqn:E1.
  - symmetry. exact (region_prefix_has_hyphen _ _ _ _ E1).
  - destruct (String.prefix "en-CA-" v) eqn:E2.
    + symmetry. exact (region_prefix_has_hyphen _ _ _ _ E2).
    + reflexivity.
Qed.

Example voice_region_tagged :
  voice_config "en-US-AvaNeural" = AzureStandardVoice "en-US-AvaNeural" "azure-standard".
Proof. reflexivity. Qed.

Example voice_other_region :
  voice_config "de-DE-KatjaNeural" = AzureStandardVoice "de-DE-KatjaNeural" "azure-standard".
Proof. reflexivity. Qed.

Example voice_hyphen_only :
  voice_config "my-voice" = AzureStandardVoice "my-voice" "azure-standard".
Proof. reflexivity. Qed.

Example voice_plain : voice_config "alloy" = VoiceName "alloy".
Proof. reflexivity. Qed.

(** C10: the voice of the session configuration is a structured
    [AzureStandardVoice] exactly when the configured voice string contains
    a hyphen, and the string itself otherwise; the two region-prefix tests
    add nothing to the hyphen test. *)
Theorem voice_config_iff_hyphen (v instr : string) (w : World) :
  is_azure_voice v = str_in "-" v /\
  (In hyphen (list_ascii_of_string v) <->
   voice (session_config v instr) = AzureStandardVoice v "azure-standard") /\
  (~ In hyphen (list_ascii_of_string v) <->
   voice (session_config v instr) = VoiceName v) /\
  run (_setup_session v instr) w =
    set_trace (trace w ++
               [Log INFO "Setting up voice conversation session...";
                SessionUpdate (session_config v instr);
                Log INFO "Session configuration sent"]) w.
Proof.
  split; [apply is_azure_voice_hyphen|].
  cbn [session_config voice]. unfold voice_config.
  rewrite is_azure_voice_hyphen, <- str_in_hyphen_iff.
  assert (T : run (_setup_session v instr) w =
              set_trace (trace w ++
                 [Log INFO "Setting up voice conversation session...";
                  SessionUpdate (session_config v instr);
                  Log INFO "Session configuration sent"]) w).
  { destruct w as [a sr th n tr]. unfold run, _setup_session, log, emit, bind.
    cbn. now rewrite <- !app_assoc. }
  destruct (str_in "-" v); repeat split; intros; try congruence; try discriminate.
Qed.

(** ** Traces and the monad *)

Lemma skipn_exact {A} (l d : list A) : skipn (List.length l) (l ++ d) = d.
Proof. induction l; cbn; auto. Qed.

Lemma since_app (w w' : World) (d : list Effect) :
  trace w' = trace w ++ d -> since w w' = d.
Proof. unfold since. intros ->. apply skipn_exact. Qed.

Lemma since_refl (w : World) : since w w = [].
Proof. apply since_app. now rewrite app_nil_r. Qed.

Lemma drain_nil {A} (q : list A) : drain q = [].
Proof. induction q; cbn; auto. Qed.

Lemma played_app (a b : list Effect) : played (a ++ b) = played a ++ played b.
Proof. apply flat_map_app. Qed.

Lemma sent_app (a b : list Effect) : sent (a ++ b) = sent a ++ sent b.
Proof. apply flat_map_app. Qed.

Lemma frames_read_app (a b : list Effect) :
  frames_read (a ++ b) = frames_read a ++ frames_read b.
Proof. apply flat_map_app. Qed.

Lemma payloads_of_app (a b : list bytes) :
  payloads_of (a ++ b) = payloads_of a ++ payloads_of b.
Proof. unfold payloads_of. now rewrite filter_app, map_app. Qed.

Local Arguments Base64.b64encode : simpl never.

(** Unfolding of the methods down to the world they return. *)
Ltac unfold_methods :=
  cbv beta iota zeta delta
    [run outcome act tick _handle_event cleanup
     start_capture stop_capture start_playback stop_playback queue_audio
     _capture_audio_thread _send_audio_thread _playback_audio_thread
     audio_open_input audio_open_output start_stream response_cancel
     thread_start thread_exit alive schedule run_scheduled
     bind ret raise escape try_except self assign emit log print fresh fst snd
     nonempty_bytes nonempty_str negb andb
     open_input_raises start_stream_raises open_output_raises cancel_raises
     ap session_ready threads next_id trace scheduled audio_processor
     is_capturing is_playing input_stream output_stream audio_queue
     audio_send_queue capture_thread playback_thread send_thread loop
     set_is_capturing set_is_playing set_input_stream set_output_stream
     set_audio_queue set_audio_send_queue set_capture_thread
     set_playback_thread set_send_thread set_loop
     set_ap set_session_ready set_threads set_next_id set_trace
     set_scheduled set_audio_processor].

Ltac open_world w :=
  destruct w as [[capturing playing istream ostream aqueue squeue
                  cthread pthread sthread lp] ready thr nid tr sched created].

Ltac open_env env :=
  destruct env as [open_in start_in open_out cancel_out].

(** Case analysis on whatever the method tests next. *)
Ltac break_match :=
  match goal with
  | |- context [match ?x with _ => _ end] => is_var x; destruct x
  | |- context [existsb (is_thread ?t ?k) ?l] =>
      destruct (existsb (is_thread t k) l) eqn:?
  end.

Ltac run_methods := unfold_methods; repeat (break_match; unfold_methods).

Lemma since_same (w w' : World) : trace w' = trace w -> since w w' = [].
Proof. intros H. apply since_app. now rewrite app_nil_r. Qed.

Lemma extends_intro (w w' : World) (d : list Effect) :
  trace w' = trace w ++ d -> extends w w'.
Proof. intros H. unfold extends. now rewrite (since_app _ _ _ H). Qed.

Lemma extends_refl (w : World) : extends w w.
Proof. apply extends_intro with (d := []). now rewrite app_nil_r. Qed.

Lemma extends_trans (w w' w'' : World) :
  extends w w' -> extends w' w'' ->
  extends w w'' /\ since w w'' = since w w' ++ since w' w''.
Proof.
  unfold extends. intros H1 H2.
  assert (E : trace w'' = trace w ++ since w w' ++ since w' w'')
    by (now rewrite H2, H1, <- app_assoc).
  rewrite (since_app _ _ _ E). auto.
Qed.

Lemma since_app2 (w w' : World) (tr l d : list Effect) :
  trace w = tr ++ l -> trace w' = tr ++ (l ++ d) -> since w w' = d.
Proof.
  intros H1 H2. apply since_app. now rewrite H1, H2, app_assoc.
Qed.

(** Brings the traces to the shape [tr ++ d] and reads [since] off them. *)
Ltac read_since w w' :=
  let T := eval cbv [trace] in (trace w) in
  first [ rewrite (since_same w w') by reflexivity
        | erewrite (since_app w w') by reflexivity
        | lazymatch T with
          | ?tr ++ ?l => erewrite (since_app2 w w' tr l) by reflexivity
          end ].

Ltac read_trace :=
  repeat rewrite <- app_assoc; cbn [app];
  repeat match goal with
         | |- context [since ?w ?w'] => read_since w w'
         end.

Ltac solve_extends :=
  first [ apply extends_refl
        | apply extends_intro with (d := []); cbv [trace];
          symmetry; apply app_nil_r
        | eapply extends_intro; cbv [trace];
          repeat rewrite <- app_assoc; reflexivity ].

(** ** Stopping the capture line *)

(** C6: stopping capture twice in a row raises nothing, the line is
    inactive after either call, and the second call changes nothing. *)
Theorem stop_capture_idempotent (w : World) :
  let w1 := run stop_capture w in
  outcome stop_capture w = Return tt /\
  is_capturing (ap w1) = false /\
  stop_capture w1 = (Return tt, w1) /\
  (is_capturing (ap w) = false -> stop_capture w = (Return tt, w)).
Proof.
  open_world w.
  destruct capturing, istream, cthread, sthread;
    unfold_methods; repeat split; intros; try discriminate; reflexivity.
Qed.

Lemma stop_capture_idempotent_witness :
  stop_capture init_world = (Return tt, init_world) /\
  is_capturing (ap (run stop_capture init_world)) = false.
Proof.
  destruct (stop_capture_idempotent init_world) as (_ & H2 & _ & H4).
  exact (conj (H4 eq_refl) H2).
Defined.

(** ** What every run keeps true *)

Lemma act_playback_ok (a : Action) (w : World) :
  playback_ok w -> playback_ok (run (act a) w).
Proof.
  unfold playback_ok. open_world w.
  destruct a as [env| |env|d| | |env ev|k|r]; try open_env env;
    try destruct ev; try destruct k;
    intros H; run_methods; cbn in *;
    rewrite ?drain_nil; intros; try discriminate; auto;
    try (specialize (H eq_refl); discriminate).
Qed.

Lemma Forall_snoc {A} (P : A -> Prop) (l : list A) (x : A) :
  Forall P l -> P x -> Forall P (l ++ [x]).
Proof. intros. apply Forall_app. split; auto. Qed.

Lemma Forall_tail {A} (P : A -> Prop) (l : list A) (x : A) :
  Forall P (x :: l) -> Forall P l.
Proof. inversion 1; auto. Qed.

Lemma act_transmit_ok (a : Action) (w : World) :
  transmit_ok w -> transmit_ok (run (act a) w).
Proof.
  unfold transmit_ok. open_world w.
  destruct a as [env| |env|d| | |env ev|k|r]; try open_env env;
    try destruct ev; try destruct k;
    intros [H1 H2]; run_methods;
    cbv beta iota zeta delta [ap is_capturing loop audio_send_queue] in *;
    rewrite ?drain_nil; (split; [intros; try discriminate; auto|]);
    auto;
    try (apply Forall_snoc; [assumption | now apply encode_nonempty]);
    try (now apply Forall_tail in H2).
Qed.

Lemma exec_playback_ok (acts : list Action) (w : World) :
  playback_ok w -> playback_ok (exec acts w).
Proof.
  revert w. induction acts as [|a acts IH]; intros w H; [exact H|].
  cbn. apply IH, act_playback_ok, H.
Qed.

Lemma exec_transmit_ok (acts : list Action) (w : World) :
  transmit_ok w -> transmit_ok (exec acts w).
Proof.
  revert w. induction acts as [|a acts IH]; intros w H; [exact H|].
  cbn. apply IH, act_transmit_ok, H.
Qed.

Lemma init_playback_ok : playback_ok init_world.
Proof. intros _. reflexivity. Qed.

Lemma init_transmit_ok : transmit_ok init_world.
Proof. split; [discriminate | constructor]. Qed.

(** ** One iteration of a worker *)

Lemma tick_extends (k : Tick) (w : World) : extends w (run (tick k) w).
Proof.
  open_world w. destruct k; run_methods; solve_extends.
Qed.

Lemma tick_flags (k : Tick) (w : World) :
  let w' := run (tick k) w in
  is_capturing (ap w') = is_capturing (ap w) /\
  is_playing (ap w') = is_playing (ap w) /\
  loop (ap w') = loop (ap w) /\
  input_stream (ap w') = input_stream (ap w) /\
  output_stream (ap w') = output_stream (ap w) /\
  session_ready w' = session_ready w.
Proof.
  open_world w. destruct k; run_methods; repeat split.
Qed.

Lemma run_ticks_cons (k : Tick) (ks : list Tick) (w : World) :
  run_ticks (k :: ks) w = run_ticks ks (run (tick k) w).
Proof. reflexivity. Qed.

Lemma run_ticks_extends (ks : list Tick) (w : World) :
  extends w (run_ticks ks w).
Proof.
  revert w. induction ks as [|k ks IH]; intros w; [apply extends_refl|].
  rewrite run_ticks_cons.
  exact (proj1 (extends_trans (tick_extends k w) (IH _))).
Qed.

Lemma run_ticks_since (k : Tick) (ks : list Tick) (w : World) :
  since w (run_ticks (k :: ks) w) =
  since w (run (tick k) w) ++ since (run (tick k) w) (run_ticks ks (run (tick k) w)).
Proof.
  rewrite run_ticks_cons.
  exact (proj2 (extends_trans (tick_extends k w) (run_ticks_extends ks _))).
Qed.

Lemma subseq_refl {A} (l : list A) : subseq l l.
Proof. induction l; [apply subseq_nil | now apply subseq_keep]. Qed.

Lemma subseq_nil_l {A} (l : list A) : subseq [] l.
Proof. induction l; [apply subseq_nil | now apply subseq_skip]. Qed.

Lemma subseq_app {A} (l1 l1' l2 l2' : list A) :
  subseq l1 l1' -> subseq l2 l2' -> subseq (l1 ++ l2) (l1' ++ l2').
Proof.
  intros H1 H2. induction H1; cbn.
  - exact H2.
  - now apply subseq_skip.
  - now apply subseq_keep.
Qed.

(** One iteration keeps the transmit line in order: what it reads goes on
    the tail of the queue, what it takes comes off the head, and it sends
    what it takes unless the send raises. *)
Lemma tick_transmit (k : Tick) (w : World) :
  transmit_ok w ->
  let w' := run (tick k) w in
  exists taken,
    taken ++ audio_send_queue (ap w') =
      audio_send_queue (ap w) ++ payloads_of (frames_read (since w w')) /\
    subseq (sent (since w w')) taken /\
    (send_raises k = false -> sent (since w w') = taken).
Proof.
  unfold transmit_ok. open_world w.
  destruct k; intros [H1 H2]; run_methods; read_trace; cbn;
    rewrite ?app_nil_r;
    try (exfalso; cbn in H1, H2;
         first [ inversion H2; discriminate
               | specialize (H1 eq_refl); discriminate ]);
    first [ exists []; cbn; repeat split; apply subseq_nil
          | eexists [_]; cbn; repeat split;
            first [ apply subseq_refl | apply subseq_nil_l | discriminate ] ].
Qed.

Lemma tick_transmit_ok (k : Tick) (w : World) :
  transmit_ok w -> transmit_ok (run (tick k) w).
Proof. exact (@act_transmit_ok (Step k) w). Qed.

Lemma run_ticks_transmit (ks : list Tick) (w : World) :
  transmit_ok w ->
  let w' := run_ticks ks w in
  exists taken,
    taken ++ audio_send_queue (ap w') =
      audio_send_queue (ap w) ++ payloads_of (frames_read (since w w')) /\
    subseq (sent (since w w')) taken /\
    (existsb send_raises ks = false -> sent (since w w') = taken).
Proof.
  revert w. induction ks as [|k ks IH]; intros w Hw; cbv zeta.
  - exists []. cbn. rewrite since_refl. cbn. rewrite app_nil_r.
    repeat split. apply subseq_nil.
  - rewrite run_ticks_since, run_ticks_cons.
    destruct (tick_transmit k Hw) as (t1 & E1 & S1 & X1).
    destruct (IH _ (tick_transmit_ok k Hw)) as (t2 & E2 & S2 & X2).
    exists (t1 ++ t2).
    rewrite sent_app, frames_read_app, payloads_of_app.
    split; [|split].
    + rewrite <- app_assoc, E2, !app_assoc. f_equal. exact E1.
    + now apply subseq_app.
    + cbn [existsb]. intros H. apply orb_false_iff in H. destruct H as [Ha Hb].
      now rewrite (X1 Ha), (X2 Hb).
Qed.



(** One iteration takes at most the head of the playback queue and
    writes nothing else. *)
Lemma tick_playback (k : Tick) (w : World) :
  let w' := run (tick k) w in
  exists taken,
    taken ++ audio_queue (ap w') = audio_queue (ap w) /\
    subseq (played (since w w')) taken.
Proof.
  open_world w.
  destruct k; run_methods; read_trace; cbn;
    first [ exists []; cbn; split; [reflexivity | apply subseq_nil]
          | eexists [_]; cbn; split;
            [reflexivity | first [ apply subseq_refl | apply subseq_nil_l ]] ].
Qed.

Lemma run_ticks_playback (ks : list Tick) (w : World) :
  let w' := run_ticks ks w in
  exists taken,
    taken ++ audio_queue (ap w') = audio_queue (ap w) /\
    subseq (played (since w w')) taken.
Proof.
  revert w. induction ks as [|k ks IH]; intros w; cbv zeta.
  - exists []. cbn. rewrite since_refl. split; [reflexivity | apply subseq_nil].
  - rewrite run_ticks_since, run_ticks_cons.
    destruct (tick_playback k w) as (t1 & E1 & S1).
    destruct (IH (run (tick k) w)) as (t2 & E2 & S2).
    exists (t1 ++ t2). rewrite played_app. split.
    + now rewrite <- app_assoc, E2.
    + now apply subseq_app.
Qed.

Lemma subseq_nil_r {A} (l : list A) : subseq l [] -> l = [].
Proof. inversion 1; reflexivity. Qed.

Lemma subseq_singleton {A} (l : list A) (x : A) :
  subseq l [x] -> l = [] \/ l = [x].
Proof.
  inversion 1 as [|y l1 l2 H1|y l1 l2 H1]; subst;
    apply subseq_nil_r in H1; subst; auto.
Qed.

Lemma subseq_of_prefix {A} (l taken rest : list A) (q : list A) :
  taken ++ rest = q -> subseq l taken -> subseq l q.
Proof.
  intros <- H. rewrite <- (app_nil_r l). apply subseq_app; [exact H|].
  apply subseq_nil_l.
Qed.

(** The playback worker [t], alive and writing without error, plays the
    queue from its head, one frame per iteration, skipping empty ones. *)
Lemma playback_writes (t h : nat) (n : nat) (w : World) :
  is_playing (ap w) = true ->
  output_stream (ap w) = Some h ->
  alive t PlaybackWorker w = true ->
  let w' := run_ticks (repeat (PlaybackTick t None) n) w in
  played (since w w') = filter nonempty_bytes (firstn n (audio_queue (ap w))) /\
  audio_queue (ap w') = skipn n (audio_queue (ap w)).
Proof.
  revert w. induction n as [|n IH]; intros w Hp Ho Ha; cbv zeta.
  - cbn. rewrite since_refl. auto.
  - cbn [repeat]. rewrite run_ticks_since, run_ticks_cons.
    assert (S1 : played (since w (run (tick (PlaybackTick t None)) w)) =
                 filter nonempty_bytes (firstn 1 (audio_queue (ap w))) /\
                 audio_queue (ap (run (tick (PlaybackTick t None)) w)) =
                 skipn 1 (audio_queue (ap w)) /\
                 alive t PlaybackWorker (run (tick (PlaybackTick t None)) w) = true).
    { clear IH. open_world w. cbn in Hp, Ho. subst.
      unfold alive in Ha. cbn [threads] in Ha.
      unfold_methods. rewrite Ha. run_methods; read_trace; cbn; auto. }
    destruct S1 as (P1 & Q1 & A1).
    destruct (tick_flags (PlaybackTick t None) w) as (_ & F1 & _ & _ & F2 & _).
    destruct (IH (run (tick (PlaybackTick t None)) w)) as (P2 & Q2);
      [congruence | congruence | exact A1 |].
    rewrite played_app, P1, P2, Q2, Q1.
    destruct (audio_queue (ap w)) as [|f q]; cbn.
    + now rewrite firstn_nil, skipn_nil.
    + split; [|reflexivity]. now destruct (nonempty_bytes f).
Qed.

(** ** Starting the capture line *)

(** C8: when the input device cannot be opened, [start_capture] raises
    the device error to its caller and the line is as before: not
    capturing, no stream, no thread started, both queues untouched.  Only
    the event loop stored at the start of the call stays stored. *)
Theorem start_capture_open_failure (env : Env) (e : Exn) (w : World) :
  is_capturing (ap w) = false ->
  open_input_raises env = Some e ->
  let w' := run (start_capture env) w in
  outcome (start_capture env) w = Raise e /\
  is_capturing (ap w') = false /\
  ap w' = set_loop true (ap w) /\
  threads w' = threads w /\
  next_id w' = next_id w /\
  since w w' = [Log ERROR ("Failed to start audio capture: " ++ e)].
Proof.
  open_world w. open_env env. cbn [ap is_capturing open_input_raises].
  intros -> ->. run_methods; read_trace. repeat split.
Qed.

Lemma start_capture_open_failure_witness :
  outcome (start_capture no_microphone) init_world = Raise "Invalid input device" /\
  is_capturing (ap (run (start_capture no_microphone) init_world)) = false.
Proof.
  destruct (@start_capture_open_failure no_microphone "Invalid input device"
              init_world eq_refl eq_refl) as (H1 & H2 & _).
  exact (conj H1 H2).
Defined.



(** ** Interruption *)

(** C1: handling SpeechStarted stops the playback line first, so that the
    playback queue is empty when the handler returns; after that it
    attempts the cancel command exactly once; when the command raises, the
    handler logs the exception at debug level, and in every case it
    returns normally. *)
Theorem speech_started_interrupts (acts : list Action) (env : Env) :
  let w := exec acts init_world in
  let w' := run (_handle_event env INPUT_AUDIO_BUFFER_SPEECH_STARTED) w in
  outcome (_handle_event env INPUT_AUDIO_BUFFER_SPEECH_STARTED) w = Return tt /\
  is_playing (ap w') = false /\
  audio_queue (ap w') = [] /\
  output_stream (ap w') =
    (if is_playing (ap w) then None else output_stream (ap w)) /\
  since w w' =
    [Log DEBUG "Received event: input_audio_buffer.speech_started";
     Log INFO "User started speaking - stopping playback";
     Print "Listening..."]
    ++ since w (run stop_playback w)
    ++ ResponseCancel :: cancel_log env /\
  cancels (since w (run stop_playback w)) = 0 /\
  cancels (since w w') = 1.
Proof.
  pose proof (exec_playback_ok acts init_playback_ok) as H.
  revert H. generalize (exec acts init_world). intros w.
  unfold playback_ok, cancel_log. open_world w. open_env env.
  cbn [ap is_playing audio_queue]. intros H.
  run_methods; read_trace; rewrite ?drain_nil; cbn;
    repeat split; auto.
Qed.

Example speech_started_while_responding :
  let w := exec [CallStartPlayback quiet;
                 Handle quiet (SESSION_UPDATED "sess_1");
                 Handle quiet (RESPONSE_AUDIO_DELTA [Byte.x01; Byte.x02]);
                 Handle quiet (RESPONSE_AUDIO_DELTA [Byte.x03; Byte.x04])]
                init_world in
  let w' := run (_handle_event nothing_to_cancel INPUT_AUDIO_BUFFER_SPEECH_STARTED) w in
  audio_queue (ap w) = [[Byte.x01; Byte.x02]; [Byte.x03; Byte.x04]] /\
  audio_queue (ap w') = [] /\
  since w w' =
    [Log DEBUG "Received event: input_audio_buffer.speech_started";
     Log INFO "User started speaking - stopping playback";
     Print "Listening...";
     StopStream 0; CloseStream 0; ThreadJoin 1;
     Log INFO "Stopped audio playback";
     ResponseCancel;
     Log DEBUG "No response to cancel: no active response"].
Proof. vm_compute. auto. Qed.

(** ** Inbound audio *)

(** The world in which the counterexample of C2 is taken: playback was
    started, the session is ready, and the user has started speaking. *)
Example listening_world_is_inactive :
  is_playing (ap (exec [CallStartPlayback quiet;
                        Handle quiet (SESSION_UPDATED "sess_1");
                        Handle quiet INPUT_AUDIO_BUFFER_SPEECH_STARTED]
                       init_world)) = false.
Proof. reflexivity. Qed.




(** ** Restarting playback *)

Lemma alive_last (t : nat) (k : Worker) (l : list (nat * Worker)) :
  existsb (is_thread t k) (l ++ [(t, k)]) = true.
Proof.
  rewrite existsb_app. cbn. unfold is_thread. cbn.
  rewrite Nat.eqb_refl. destruct k; cbn; now rewrite orb_true_r.
Qed.

(** The return of a capture or send worker leaves the playback workers. *)
Lemma alive_filter_other (t t' : nat) (k' : Worker) (l : list (nat * Worker)) :
  k' <> PlaybackWorker ->
  existsb (is_thread t PlaybackWorker)
          (filter (fun p => negb (is_thread t' k' p)) l) =
  existsb (is_thread t PlaybackWorker) l.
Proof.
  intros Hk. induction l as [|[n k] l IH]; [reflexivity|].
  cbn [filter existsb]. unfold is_thread in *. cbn [fst snd] in *.
  destruct (Nat.eqb n t'), k, k'; cbn; rewrite ?IH; cbn;
    rewrite ?andb_false_r; try reflexivity; try congruence.
Qed.

Ltac break_var :=
  match goal with
  | |- context [match ?x with _ => _ end] => is_var x; destruct x
  end.

(** With nothing queued for playback an iteration writes nothing, and a
    playback worker stays alive while playback is active. *)
Lemma tick_playback_quiet (k : Tick) (w : World) :
  audio_queue (ap w) = [] ->
  let w' := run (tick k) w in
  audio_queue (ap w') = [] /\
  played (since w w') = [] /\
  playback_thread (ap w') = playback_thread (ap w).
Proof.
  open_world w. cbn [ap audio_queue]. intros ->.
  destruct k; run_methods; read_trace; repeat split.
Qed.

Lemma tick_keeps_playback_worker (k : Tick) (t : nat) (w : World) :
  audio_queue (ap w) = [] ->
  is_playing (ap w) = true ->
  alive t PlaybackWorker w = true ->
  alive t PlaybackWorker (run (tick k) w) = true.
Proof.
  open_world w. unfold alive. cbn [ap audio_queue is_playing threads].
  intros -> -> Ha.
  destruct k as [t0 r|t0 r|t0 r]; unfold run, tick;
    match goal with
    | |- context [alive ?a ?b ?c] => destruct (alive a b c)
    end;
    unfold_methods; repeat (break_var; unfold_methods);
    first [ exact Ha
          | refine (eq_trans (@alive_filter_other t _ _ thr _) Ha);
            discriminate ].
Qed.

Lemma run_ticks_playback_quiet (ks : list Tick) (t : nat) (w : World) :
  audio_queue (ap w) = [] ->
  let w' := run_ticks ks w in
  audio_queue (ap w') = [] /\
  played (since w w') = [] /\
  is_playing (ap w') = is_playing (ap w) /\
  output_stream (ap w') = output_stream (ap w) /\
  playback_thread (ap w') = playback_thread (ap w) /\
  (is_playing (ap w) = true ->
   alive t PlaybackWorker w = true -> alive t PlaybackWorker w' = true).
Proof.
  revert w. induction ks as [|k ks IH]; intros w Hq; cbv zeta.
  - cbn. rewrite since_refl. auto 10.
  - rewrite run_ticks_since, run_ticks_cons.
    destruct (tick_playback_quiet k w Hq) as (Q1 & P1 & T1).
    destruct (tick_flags k w) as (_ & F1 & _ & _ & F2 & _).
    destruct (IH _ Q1) as (Q2 & P2 & F3 & F4 & T2 & A2).
    rewrite played_app, P1, P2.
    repeat split; try congruence.
    intros Hp Ha. apply A2; [congruence|].
    now apply tick_keeps_playback_worker.
Qed.

Lemma stop_playback_from (w : World) :
  playback_ok w ->
  let w1 := run stop_playback w in
  outcome stop_playback w = Return tt /\
  is_playing (ap w1) = false /\
  audio_queue (ap w1) = [] /\
  extends w w1 /\
  played (since w w1) = [].
Proof.
  unfold playback_ok. open_world w. cbn [ap is_playing audio_queue]. intros H.
  destruct playing, ostream, pthread; unfold_methods; rewrite ?drain_nil;
    (repeat split; try solve_extends; try (read_trace; reflexivity));
    now apply H.
Qed.

Lemma start_playback_from (env : Env) (w : World) :
  is_playing (ap w) = false ->
  open_output_raises env = None ->
  let w2 := run (start_playback env) w in
  outcome (start_playback env) w = Return tt /\
  is_playing (ap w2) = true /\
  output_stream (ap w2) = Some (next_id w) /\
  playback_thread (ap w2) = Some (S (next_id w)) /\
  alive (S (next_id w)) PlaybackWorker w2 = true /\
  audio_queue (ap w2) = audio_queue (ap w) /\
  extends w w2 /\
  played (since w w2) = [].
Proof.
  open_world w. open_env env.
  cbn [ap is_playing open_output_raises]. intros -> ->.
  unfold_methods. rewrite alive_last.
  repeat split; try solve_extends; read_trace; reflexivity.
Qed.

Lemma queue_audio_active (f : bytes) (w : World) :
  is_playing (ap w) = true ->
  let w3 := run (queue_audio f) w in
  outcome (queue_audio f) w = Return tt /\
  audio_queue (ap w3) = audio_queue (ap w) ++ [f] /\
  is_playing (ap w3) = true /\
  output_stream (ap w3) = output_stream (ap w) /\
  playback_thread (ap w3) = playback_thread (ap w) /\
  threads w3 = threads w /\
  trace w3 = trace w.
Proof.
  open_world w. cbn [ap is_playing]. intros ->.
  unfold_methods. repeat split.
Qed.

(** The playback worker never writes an empty frame. *)
Lemma tick_plays_nonempty (k : Tick) (w : World) :
  forallb nonempty_bytes (played (since w (run (tick k) w))) = true.
Proof.
  open_world w. destruct k; run_methods; read_trace; reflexivity.
Qed.

Lemma run_ticks_plays_nonempty (ks : list Tick) (w : World) :
  forallb nonempty_bytes (played (since w (run_ticks ks w))) = true.
Proof.
  revert w. induction ks as [|k ks IH]; intros w.
  - cbn. rewrite since_refl. reflexivity.
  - rewrite run_ticks_since, played_app, forallb_app, tick_plays_nonempty, IH.
    reflexivity.
Qed.

(** C3 as stated fails at the empty frame: after [stop_playback],
    [start_playback] and [queue_audio b""] the frame is in the queue, and
    whatever the workers do it is never written to the device; one
    iteration of the playback worker takes it off the queue and drops
    it. *)
Lemma empty_frame_never_played :
  let w := exec [CallStartPlayback quiet] init_world in
  let w3 := run (queue_audio [])
              (run (start_playback quiet) (run stop_playback w)) in
  audio_queue (ap w3) = [[]] /\
  (forall ks, played (since w (run_ticks ks w3)) = []) /\
  audio_queue (ap (run_ticks [PlaybackTick 3 None] w3)) = [].
Proof.
  cbv zeta. split; [vm_compute; reflexivity|]. split; [|vm_compute; reflexivity].
  intros ks.
  set (w := exec [CallStartPlayback quiet] init_world).
  set (w3 := run (queue_audio []) (run (start_playback quiet) (run stop_playback w))).
  assert (E : extends w w3) by (vm_compute; reflexivity).
  rewrite (proj2 (extends_trans E (run_ticks_extends ks w3))), played_app.
  assert (P : played (since w w3) = []) by (vm_compute; reflexivity).
  rewrite P. cbn [app].
  destruct (run_ticks_playback ks w3) as (taken & X1 & X2).
  pose proof (run_ticks_plays_nonempty ks w3) as N.
  assert (Q : audio_queue (ap w3) = [[]]) by (vm_compute; reflexivity).
  rewrite Q in X1.
  destruct (subseq_singleton (@subseq_of_prefix _ _ _ _ _ X1 X2)) as [H|H]; [exact H|].
  rewrite H in N. discriminate N.
Qed.

(** C3, amended: from any state a run can reach, [stop_playback], then
    [start_playback] (the output device opening), then [queue_audio f]
    for a frame [f] that is not empty, the workers running as they will
    between the calls, leave exactly [f] in the playback queue; whatever
    the workers do afterwards, nothing but [f] is written to the device
    since the stop began, and [f] at most once; and once the new playback
    worker has made an iteration, its write succeeding, [f] has been
    written exactly once.  Besides, [queue_audio] while playback is
    inactive returns normally and changes nothing. *)
Theorem stop_start_enqueue_plays_once
    (acts : list Action) (env : Env) (f : bytes) (ks1 ks2 : list Tick) :
  open_output_raises env = None ->
  nonempty_bytes f = true ->
  let w := exec acts init_world in
  let w1 := run_ticks ks1 (run stop_playback w) in
  let w2 := run_ticks ks2 (run (start_playback env) w1) in
  let w3 := run (queue_audio f) w2 in
  (outcome stop_playback w = Return tt /\
   outcome (start_playback env) w1 = Return tt /\
   outcome (queue_audio f) w2 = Return tt) /\
  audio_queue (ap (run stop_playback w)) = [] /\
  audio_queue (ap w3) = [f] /\
  (forall ks,
     played (since w (run_ticks ks w3)) = [] \/
     played (since w (run_ticks ks w3)) = [f]) /\
  (exists t,
     playback_thread (ap w3) = Some t /\
     forall n,
       played (since w (run_ticks (repeat (PlaybackTick t None) (S n)) w3)) = [f]) /\
  (forall (g : bytes) (w0 : World),
     is_playing (ap w0) = false -> queue_audio g w0 = (Return tt, w0)).
Proof.
  intros He Hf. cbv zeta.
  set (w := exec acts init_world).
  destruct (@stop_playback_from w (exec_playback_ok acts init_playback_ok))
    as (O1 & P1 & Q1 & E1 & L1).
  set (wa := run stop_playback w) in *.
  destruct (@run_ticks_playback_quiet ks1 0 wa Q1)
    as (Q1' & L1' & P1' & _ & _ & _).
  pose proof (run_ticks_extends ks1 wa) as E1'.
  set (w1 := run_ticks ks1 wa) in *.
  rewrite P1 in P1'.
  destruct (@start_playback_from env w1 P1' He)
    as (O2 & P2 & S2 & T2 & A2 & Q2 & E2 & L2).
  set (wb := run (start_playback env) w1) in *.
  rewrite Q1' in Q2.
  destruct (@run_ticks_playback_quiet ks2 (S (next_id w1)) wb Q2)
    as (Q2' & L2' & P2' & S2' & T2' & A2').
  pose proof (run_ticks_extends ks2 wb) as E2'.
  set (w2 := run_ticks ks2 wb) in *.
  rewrite P2 in P2'. rewrite S2 in S2'. rewrite T2 in T2'.
  specialize (A2' P2 A2).
  destruct (@queue_audio_active f w2 P2') as (O3 & Q3 & P3 & S3 & T3 & H3 & R3).
  set (w3 := run (queue_audio f) w2) in *.
  rewrite Q2' in Q3. cbn [app] in Q3.
  rewrite S2' in S3. rewrite T2' in T3.
  assert (A3 : alive (S (next_id w1)) PlaybackWorker w3 = true)
    by (unfold alive in *; rewrite H3; exact A2').
  assert (E3 : extends w2 w3)
    by (apply extends_intro with (d := []); rewrite R3; symmetry; apply app_nil_r).
  assert (L3 : played (since w2 w3) = []) by (now rewrite (since_same _ _ R3)).
  (* the trace from the stop to the enqueue holds no write *)
  destruct (extends_trans E1 E1') as (Ea & Sa).
  destruct (extends_trans Ea E2) as (Eb & Sb).
  destruct (extends_trans Eb E2') as (Ec & Sc).
  destruct (extends_trans Ec E3) as (E & Sd).
  assert (Pl : played (since w w3) = []).
  { rewrite Sd, Sc, Sb, Sa, !played_app, L1, L1', L2, L2', L3. reflexivity. }
  split; [auto|]. split; [exact Q1|]. split; [exact Q3|].
  assert (S : forall ks, played (since w (run_ticks ks w3)) =
                         played (since w3 (run_ticks ks w3))).
  { intros ks.
    rewrite (proj2 (extends_trans E (run_ticks_extends ks w3))).
    now rewrite played_app, Pl. }
  split; [|split].
  - intros ks. rewrite S.
    destruct (run_ticks_playback ks w3) as (taken & X1 & X2).
    rewrite Q3 in X1.
    apply subseq_singleton. exact (subseq_of_prefix _ X1 X2).
  - exists (Datatypes.S (next_id w1)). split; [exact T3|].
    intros n. rewrite S.
    destruct (playback_writes (Datatypes.S (next_id w1)) (Datatypes.S n) w3 P3 S3 A3)
      as (P & _).
    rewrite P, Q3. cbn. rewrite firstn_nil. cbn. now rewrite Hf.
  - intros g w0 H0. open_world w0. cbn in H0. subst. reflexivity.
Qed.

Lemma stop_start_enqueue_plays_once_witness :
  let f := [Byte.x10; Byte.x20] in
  let w := exec [CallStartPlayback quiet;
                 Handle quiet (RESPONSE_AUDIO_DELTA [Byte.x01; Byte.x02])]
                init_world in
  let w1 := run_ticks [PlaybackTick 1 None] (run stop_playback w) in
  let w2 := run_ticks [PlaybackTick 3 None] (run (start_playback quiet) w1) in
  let w3 := run (queue_audio f) w2 in
  audio_queue (ap w) = [[Byte.x01; Byte.x02]] /\
  audio_queue (ap w3) = [f] /\
  played (since w (run_ticks [PlaybackTick 3 None] w3)) = [f].
Proof.
  cbv zeta.
  destruct (@stop_start_enqueue_plays_once
              [CallStartPlayback quiet;
               Handle quiet (RESPONSE_AUDIO_DELTA [Byte.x01; Byte.x02])]
              quiet [Byte.x10; Byte.x20]
              [PlaybackTick 1 None] [PlaybackTick 3 None] eq_refl eq_refl)
    as (_ & _ & H3 & _ & (t & Ht & H5) & _).
  split; [reflexivity|]. split; [exact H3|].
  assert (E : t = 3) by (vm_compute in Ht; congruence).
  subst t. exact (H5 0).
Defined.

(** ** Order on the transmit line *)

Lemma subseq_trans {A} (l1 l2 l3 : list A) :
  subseq l1 l2 -> subseq l2 l3 -> subseq l1 l3.
Proof.
  intros H1 H2. revert l1 H1.
  induction H2 as [|x l2 l3 H2 IH|x l2 l3 H2 IH]; intros l1 H1.
  - exact H1.
  - apply subseq_skip, IH, H1.
  - inversion H1; subst.
    + apply subseq_skip, IH. assumption.
    + apply subseq_keep, IH. assumption.
Qed.

Lemma subseq_app_l {A} (l l' : list A) : subseq l (l ++ l').
Proof.
  rewrite <- (app_nil_r l) at 1. apply subseq_app; [apply subseq_refl | apply subseq_nil_l].
Qed.

Lemma act_extends (a : Action) (w : World) : extends w (run (act a) w).
Proof.
  destruct a as [env| |env|d| | |env ev|k|r];
    try (apply tick_extends);
    open_world w; try open_env env; try destruct ev;
    run_methods; solve_extends.
Qed.

Lemma exec_cons (a : Action) (acts : list Action) (w : World) :
  exec (a :: acts) w = exec acts (run (act a) w).
Proof. reflexivity. Qed.

Lemma exec_extends (acts : list Action) (w : World) : extends w (exec acts w).
Proof.
  revert w. induction acts as [|a acts IH]; intros w; [apply extends_refl|].
  rewrite exec_cons.
  exact (proj1 (extends_trans (act_extends a w) (IH _))).
Qed.

Lemma exec_since (a : Action) (acts : list Action) (w : World) :
  since w (exec (a :: acts) w) =
  since w (run (act a) w) ++ since (run (act a) w) (exec acts (run (act a) w)).
Proof.
  rewrite exec_cons.
  exact (proj2 (extends_trans (act_extends a w) (exec_extends acts _))).
Qed.

(** Whatever happens, what has been sent and what is still queued are,
    in order, among what was queued before and what was read since. *)
Lemma act_transmit_order (a : Action) (w : World) :
  transmit_ok w ->
  let w' := run (act a) w in
  subseq (sent (since w w') ++ audio_send_queue (ap w'))
         (audio_send_queue (ap w) ++ payloads_of (frames_read (since w w'))).
Proof.
  intros Hw. destruct a as [env| |env|d| | |env ev|k|r].
  8: { cbv zeta. cbn [act].
       destruct (tick_transmit k Hw) as (taken & E & S & _).
       rewrite <- E. apply subseq_app; [exact S | apply subseq_refl]. }
  all: clear Hw; open_world w; try open_env env; try destruct ev;
    run_methods; read_trace; cbn; rewrite ?drain_nil, ?app_nil_r;
    first [ apply subseq_refl | apply subseq_nil_l ].
Qed.

Lemma exec_transmit_order (acts : list Action) (w : World) :
  transmit_ok w ->
  let w' := exec acts w in
  subseq (sent (since w w') ++ audio_send_queue (ap w'))
         (audio_send_queue (ap w) ++ payloads_of (frames_read (since w w'))).
Proof.
  revert w. induction acts as [|a acts IH]; intros w Hw; cbv zeta.
  - cbn. rewrite since_refl. cbn. rewrite app_nil_r. apply subseq_refl.
  - rewrite exec_since, exec_cons.
    rewrite sent_app, frames_read_app, payloads_of_app.
    pose proof (act_transmit_order a Hw) as S1.
    pose proof (IH _ (act_transmit_ok a Hw)) as S2.
    cbv zeta in S1, S2.
    rewrite <- app_assoc.
    eapply subseq_trans.
    + apply subseq_app; [apply subseq_refl | exact S2].
    + rewrite !app_assoc. apply subseq_app; [exact S1 | apply subseq_refl].
Qed.

Lemma transmitted_app (a b : list Effect) :
  transmitted (a ++ b) = transmitted a ++ transmitted b.
Proof. apply flat_map_app. Qed.

(** The capture worker, alive and its reads succeeding, puts the encoding
    of each frame it reads at the back of the transmit queue. *)
Lemma capture_reads (t h : nat) (fs : list bytes) (w : World) :
  is_capturing (ap w) = true ->
  input_stream (ap w) = Some h ->
  alive t CaptureWorker w = true ->
  let w' := run_ticks (map (fun f => CaptureTick t (inr f)) fs) w in
  frames_read (since w w') = fs /\
  audio_send_queue (ap w') = audio_send_queue (ap w) ++ payloads_of fs /\
  sent (since w w') = [] /\
  threads w' = threads w /\
  scheduled w' = scheduled w.
Proof.
  revert w. induction fs as [|f fs IH]; intros w Hc Hi Ha; cbv zeta.
  - cbn. rewrite since_refl, app_nil_r. auto 6.
  - cbn [map]. rewrite run_ticks_since, run_ticks_cons.
    assert (S1 : frames_read (since w (run (tick (CaptureTick t (inr f))) w)) = [f] /\
                 audio_send_queue (ap (run (tick (CaptureTick t (inr f))) w)) =
                   audio_send_queue (ap w) ++ payloads_of [f] /\
                 sent (since w (run (tick (CaptureTick t (inr f))) w)) = [] /\
                 threads (run (tick (CaptureTick t (inr f))) w) = threads w /\
                 scheduled (run (tick (CaptureTick t (inr f))) w) = scheduled w).
    { clear IH. open_world w. cbn in Hc, Hi. subst.
      unfold alive in Ha. cbn [threads] in Ha.
      unfold_methods. rewrite Ha. run_methods; read_trace; cbn;
        rewrite ?app_nil_r; auto 6. }
    destruct S1 as (R1 & Q1 & S1 & T1 & C1).
    destruct (tick_flags (CaptureTick t (inr f)) w) as (F1 & _ & _ & F2 & _).
    destruct (IH (run (tick (CaptureTick t (inr f))) w)) as (R2 & Q2 & S2 & T2 & C2);
      [congruence | congruence | unfold alive in *; rewrite T1; exact Ha |].
    rewrite frames_read_app, sent_app, R1, R2, S1, S2, Q2, Q1, T2, T1, C2, C1.
    change (f :: fs) with ([f] ++ fs). rewrite payloads_of_app, app_assoc. auto 6.
Qed.

(** The send worker, alive and its hand-overs succeeding, takes the
    payloads off the head of the queue, one an iteration, and hands them
    to the event loop in that order. *)
Lemma send_drains (t n : nat) (w : World) :
  transmit_ok w ->
  is_capturing (ap w) = true ->
  alive t SendWorker w = true ->
  let w' := run_ticks (repeat (SendTick t None) n) w in
  sent (since w w') = firstn n (audio_send_queue (ap w)) /\
  audio_send_queue (ap w') = skipn n (audio_send_queue (ap w)) /\
  scheduled w' = scheduled w ++ firstn n (audio_send_queue (ap w)) /\
  transmitted (since w w') = [].
Proof.
  revert w. induction n as [|n IH]; intros w Hok Hc Ha; cbv zeta.
  - cbn. rewrite since_refl, app_nil_r. auto.
  - cbn [repeat]. rewrite run_ticks_since, run_ticks_cons.
    set (w1 := run (tick (SendTick t None)) w).
    assert (S1 : sent (since w w1) = firstn 1 (audio_send_queue (ap w)) /\
                 audio_send_queue (ap w1) = skipn 1 (audio_send_queue (ap w)) /\
                 scheduled w1 = scheduled w ++ firstn 1 (audio_send_queue (ap w)) /\
                 transmitted (since w w1) = [] /\
                 threads w1 = threads w).
    { subst w1. clear IH. destruct Hok as [H1 H2]. specialize (H1 Hc).
      open_world w. cbn in Hc, H1, H2. subst.
      unfold alive in Ha. cbn [threads] in Ha.
      unfold_methods. rewrite Ha. run_methods; read_trace; cbn;
        rewrite ?app_nil_r; auto;
        inversion H2; discriminate. }
    destruct S1 as (P1 & Q1 & C1 & X1 & T1).
    destruct (tick_flags (SendTick t None) w) as (F1 & _).
    destruct (IH w1) as (P2 & Q2 & C2 & X2);
      [exact (@tick_transmit_ok (SendTick t None) w Hok) | fold w1 in F1; congruence
      | unfold alive in *; rewrite T1; exact Ha |].
    rewrite sent_app, transmitted_app, P1, P2, Q2, C2, C1, X1, X2, !Q1.
    destruct (audio_send_queue (ap w)) as [|p q]; cbn.
    + rewrite firstn_nil, skipn_nil, !app_nil_r. auto.
    + rewrite <- app_assoc. auto.
Qed.

(** The event loop runs the coroutines it was handed in the order of the
    hand-over. *)
Lemma loop_transmits (n : nat) (w : World) :
  let w' := exec (repeat (LoopRuns None) n) w in
  transmitted (since w w') = firstn n (scheduled w) /\
  scheduled w' = skipn n (scheduled w) /\
  sent (since w w') = [] /\
  ap w' = ap w.
Proof.
  revert w. induction n as [|n IH]; intros w; cbv zeta.
  - cbn. rewrite since_refl. auto.
  - cbn [repeat]. rewrite exec_since, exec_cons.
    set (w1 := run (act (LoopRuns None)) w).
    assert (S1 : transmitted (since w w1) = firstn 1 (scheduled w) /\
                 scheduled w1 = skipn 1 (scheduled w) /\
                 sent (since w w1) = [] /\
                 ap w1 = ap w).
    { subst w1. open_world w. run_methods; read_trace; cbn; auto. }
    destruct S1 as (P1 & Q1 & X1 & A1).
    destruct (IH w1) as (P2 & Q2 & X2 & A2).
    rewrite transmitted_app, sent_app, P1, P2, Q2, Q1, X1, X2, A2, A1.
    destruct (scheduled w) as [|p q]; cbn.
    + rewrite firstn_nil, skipn_nil. auto.
    + auto.
Qed.

(** Whatever happens, what the loop has sent and what it still holds are,
    in order, among what it held before and what it was handed since. *)
Lemma act_loop_order (a : Action) (w : World) :
  let w' := run (act a) w in
  subseq (transmitted (since w w') ++ scheduled w')
         (scheduled w ++ sent (since w w')).
Proof.
  open_world w.
  destruct a as [env| |env|d| | |env ev|k|r]; try open_env env;
    try destruct ev; try destruct k;
    run_methods; read_trace; cbn; rewrite ?app_nil_r;
    first [ apply subseq_refl | apply subseq_skip, subseq_refl ].
Qed.

Lemma exec_loop_order (acts : list Action) (w : World) :
  let w' := exec acts w in
  subseq (transmitted (since w w') ++ scheduled w')
         (scheduled w ++ sent (since w w')).
Proof.
  revert w. induction acts as [|a acts IH]; intros w; cbv zeta.
  - cbn. rewrite since_refl. cbn. rewrite app_nil_r. apply subseq_refl.
  - rewrite exec_since, exec_cons.
    rewrite transmitted_app, sent_app.
    pose proof (act_loop_order a w) as S1.
    pose proof (IH (run (act a) w)) as S2.
    cbv zeta in S1, S2.
    rewrite <- app_assoc.
    eapply subseq_trans.
    + apply subseq_app; [apply subseq_refl | exact S2].
    + rewrite !app_assoc. apply subseq_app; [exact S1 | apply subseq_refl].
Qed.

Lemma run_ticks_transmit_ok (ks : list Tick) (w : World) :
  transmit_ok w -> transmit_ok (run_ticks ks w).
Proof.
  revert w. induction ks as [|k ks IH]; intros w H; [exact H|].
  rewrite run_ticks_cons. apply IH, tick_transmit_ok, H.
Qed.

Lemma run_ticks_is_capturing (ks : list Tick) (w : World) :
  is_capturing (ap (run_ticks ks w)) = is_capturing (ap w).
Proof.
  revert w. induction ks as [|k ks IH]; intros w; [reflexivity|].
  rewrite run_ticks_cons, IH. exact (proj1 (tick_flags k w)).
Qed.

(** C4: from any state a run can reach.  For any schedule of the
    workers, the payloads that entered the transmit queue are the
    encodings of the frames read, in the order they were read (an empty
    read is skipped), behind what was queued before; the payloads taken
    by the send worker come off the head of the queue, and the payloads
    handed to the event loop are those taken, in that order, all of them
    when no hand-over raises.  Over a whole run, with the line stopped and
    restarted at will, the payloads handed over are in order among the
    encodings of the frames read, and the payloads the loop has sent in
    order among those handed over.  And the workers do their part: while
    capture is active and both workers are alive, the capture worker
    reading the frames [fs] leaves their encodings at the back of the
    queue in the order read; [n] iterations of the send worker then remove
    the first [n] payloads of the queue and hand them to the event loop in
    that order; and [m] turns of the loop send the first [m] payloads it
    holds, oldest first. *)
Theorem transmit_fifo (acts : list Action) (ks : list Tick) :
  let w := exec acts init_world in
  let w' := run_ticks ks w in
  (exists taken,
     taken ++ audio_send_queue (ap w') =
       audio_send_queue (ap w) ++ payloads_of (frames_read (since w w')) /\
     subseq (sent (since w w')) taken /\
     (existsb send_raises ks = false -> sent (since w w') = taken)) /\
  subseq (sent (since init_world w))
         (payloads_of (frames_read (since init_world w))) /\
  subseq (transmitted (since init_world w)) (sent (since init_world w)) /\
  (forall (tc ts h : nat) (fs : list bytes) (n m : nat),
     is_capturing (ap w) = true ->
     input_stream (ap w) = Some h ->
     alive tc CaptureWorker w = true ->
     alive ts SendWorker w = true ->
     let w1 := run_ticks (map (fun f => CaptureTick tc (inr f)) fs) w in
     let w2 := run_ticks (repeat (SendTick ts None) n) w1 in
     let w3 := exec (repeat (LoopRuns None) m) w2 in
     frames_read (since w w1) = fs /\
     audio_send_queue (ap w1) = audio_send_queue (ap w) ++ payloads_of fs /\
     sent (since w1 w2) = firstn n (audio_send_queue (ap w1)) /\
     audio_send_queue (ap w2) = skipn n (audio_send_queue (ap w1)) /\
     scheduled w2 = scheduled w ++ firstn n (audio_send_queue (ap w1)) /\
     transmitted (since w2 w3) = firstn m (scheduled w2) /\
     scheduled w3 = skipn m (scheduled w2)).
Proof.
  cbv zeta.
  pose proof (exec_transmit_ok acts init_transmit_ok) as Hok.
  split; [|split; [|split]].
  - apply run_ticks_transmit, Hok.
  - pose proof (exec_transmit_order acts init_transmit_ok) as H.
    cbv zeta in H. cbn [init_world ap audio_send_queue app] in H.
    eapply subseq_trans; [apply subseq_app_l | exact H].
  - pose proof (exec_loop_order acts init_world) as H.
    cbv zeta in H. cbn [init_world scheduled app] in H.
    eapply subseq_trans; [apply subseq_app_l | exact H].
  - intros tc ts h fs n m Hc Hi Htc Hts.
    set (w := exec acts init_world) in *.
    destruct (@capture_reads tc h fs w Hc Hi Htc) as (R1 & Q1 & _ & T1 & C1).
    set (w1 := run_ticks (map (fun f => CaptureTick tc (inr f)) fs) w) in *.
    assert (Hok1 : transmit_ok w1) by (apply run_ticks_transmit_ok, Hok).
    assert (Hc1 : is_capturing (ap w1) = true)
      by (unfold w1; rewrite run_ticks_is_capturing; exact Hc).
    assert (Hts1 : alive ts SendWorker w1 = true)
      by (unfold alive in *; rewrite T1; exact Hts).
    destruct (@send_drains ts n w1 Hok1 Hc1 Hts1) as (P2 & Q2 & C2 & _).
    set (w2 := run_ticks (repeat (SendTick ts None) n) w1) in *.
    destruct (loop_transmits m w2) as (P3 & Q3 & _).
    rewrite C1 in C2. auto 10.
Qed.

Lemma transmit_fifo_witness :
  let w := exec [Handle quiet (SESSION_UPDATED "sess_1")] init_world in
  let fs := [[Byte.x4d; Byte.x61; Byte.x6e]; []; [Byte.x4d; Byte.x61]; [Byte.x4d]] in
  let w1 := run_ticks (map (fun f => CaptureTick 1 (inr f)) fs) w in
  let w2 := run_ticks (repeat (SendTick 2 None) 2) w1 in
  let w3 := exec (repeat (LoopRuns None) 1) w2 in
  audio_send_queue (ap w1) = ["TWFu"; "TWE="; "TQ=="] /\
  sent (since w1 w2) = ["TWFu"; "TWE="] /\
  audio_send_queue (ap w2) = ["TQ=="] /\
  transmitted (since w2 w3) = ["TWFu"] /\
  scheduled w3 = ["TWE="].
Proof.
  cbv zeta.
  destruct (transmit_fifo [Handle quiet (SESSION_UPDATED "sess_1")] [])
    as (_ & _ & _ & H).
  destruct (H 1 2 0
              [[Byte.x4d; Byte.x61; Byte.x6e]; []; [Byte.x4d; Byte.x61]; [Byte.x4d]]
              2 1 eq_refl eq_refl eq_refl eq_refl)
    as (_ & Q1 & S2 & Q2 & C2 & T3 & C3).
  rewrite T3, C3, C2, S2, Q2, Q1. repeat split.
Defined.

Example two_frames_in_order :
  let w := exec [Handle quiet (SESSION_UPDATED "sess_1")] init_world in
  let ks := [CaptureTick 1 (inr [Byte.x4d; Byte.x61; Byte.x6e]);
             CaptureTick 1 (inr [Byte.x4d; Byte.x61]);
             SendTick 2 None;
             CaptureTick 1 (inr [Byte.x4d]);
             SendTick 2 None] in
  let w' := run_ticks ks w in
  sent (since w w') = ["TWFu"; "TWE="] /\
  audio_send_queue (ap w') = ["TQ=="].
Proof. vm_compute. auto. Qed.

(** ** Stopping capture discards what is queued *)








(** * Further properties of the audio processor *)

(** ** Stopping and starting the playback line *)

(** X1: [stop_playback] returns normally from every world, writes nothing
    to the device, leaves playback inactive, and a second call changes
    nothing; called while playback is active it empties the queue and
    forgets the stream, called while inactive it changes nothing. *)
Theorem stop_playback_idempotent (w : World) :
  let w1 := run stop_playback w in
  outcome stop_playback w = Return tt /\
  is_playing (ap w1) = false /\
  played (since w w1) = [] /\
  stop_playback w1 = (Return tt, w1) /\
  audio_queue (ap w1) = (if is_playing (ap w) then [] else audio_queue (ap w)) /\
  output_stream (ap w1) = (if is_playing (ap w) then None else output_stream (ap w)) /\
  (is_playing (ap w) = false -> stop_playback w = (Return tt, w)).
Proof.
  open_world w.
  destruct playing, ostream, pthread; unfold_methods; rewrite ?drain_nil;
    read_trace; repeat split; intros; try discriminate; reflexivity.
Qed.

Lemma stop_playback_idempotent_witness :
  stop_playback init_world = (Return tt, init_world).
Proof.
  destruct (stop_playback_idempotent init_world) as (_ & _ & _ & _ & _ & _ & H).
  exact (H eq_refl).
Defined.

(** X2: when the output device cannot be opened, [start_playback] raises
    the device error and leaves the world exactly as it was, but for the
    error logged: playback inactive, no stream, no thread, the queue
    untouched. *)
Theorem start_playback_open_failure (env : Env) (e : Exn) (w : World) :
  is_playing (ap w) = false ->
  open_output_raises env = Some e ->
  start_playback env w =
    (Raise e,
     set_trace (trace w ++ [Log ERROR ("Failed to initialize audio playback: " ++ e)]) w).
Proof.
  open_world w. open_env env. cbn [ap is_playing open_output_raises].
  intros -> ->. unfold_methods. reflexivity.
Qed.

Lemma start_playback_open_failure_witness :
  outcome (start_playback
             {| open_input_raises := None; start_stream_raises := None;
                open_output_raises := Some "Invalid output device";
                cancel_raises := None |}) init_world
  = Raise "Invalid output device".
Proof.
  unfold outcome.
  rewrite (@start_playback_open_failure
             {| open_input_raises := None; start_stream_raises := None;
                open_output_raises := Some "Invalid output device";
                cancel_raises := None |}
             "Invalid output device" init_world eq_refl eq_refl).
  reflexivity.
Defined.

(** ** A capture stream that opens and does not start *)

(** X3: when the input stream opens but [start_stream] raises,
    [start_capture] raises that error with capture inactive and no thread
    started, yet the opened stream stays stored in [input_stream] and is
    not closed; [stop_capture] afterwards does nothing, so it does not
    close it either. *)
Theorem start_capture_stream_not_started (env : Env) (e : Exn) (w : World) :
  is_capturing (ap w) = false ->
  open_input_raises env = None ->
  start_stream_raises env = Some e ->
  let w' := run (start_capture env) w in
  let h := next_id w in
  outcome (start_capture env) w = Raise e /\
  is_capturing (ap w') = false /\
  input_stream (ap w') = Some h /\
  threads w' = threads w /\
  since w w' = [OpenInput h; Log ERROR ("Failed to start audio capture: " ++ e)] /\
  stop_capture w' = (Return tt, w').
Proof.
  open_world w. open_env env.
  cbn [ap is_capturing open_input_raises start_stream_raises].
  intros -> -> ->. unfold_methods; read_trace. repeat split.
Qed.

Lemma start_capture_stream_not_started_witness :
  let env := {| open_input_raises := None;
                start_stream_raises := Some "Stream not ready";
                open_output_raises := None; cancel_raises := None |} in
  input_stream (ap (run (start_capture env) init_world)) = Some 0 /\
  is_capturing (ap (run (start_capture env) init_world)) = false.
Proof.
  cbv zeta.
  destruct (@start_capture_stream_not_started
              {| open_input_raises := None;
                 start_stream_raises := Some "Stream not ready";
                 open_output_raises := None; cancel_raises := None |}
              "Stream not ready" init_world eq_refl eq_refl eq_refl)
    as (_ & H2 & H3 & _).
  exact (conj H3 H2).
Defined.

(** ** Stream and thread objects *)

Lemma start_capture_unstarted (env : Env) (e : Exn) (w : World) :
  is_capturing (ap w) = false ->
  open_input_raises env = None ->
  start_stream_raises env = Some e ->
  let w' := run (start_capture env) w in
  is_capturing (ap w') = false /\
  since w w' =
    [OpenInput (next_id w); Log ERROR ("Failed to start audio capture: " ++ e)].
Proof.
  open_world w. open_env env.
  cbn [ap is_capturing open_input_raises start_stream_raises].
  intros -> -> ->. unfold_methods; read_trace. repeat split.
Qed.

Ltac use_handles :=
  repeat match goal with
         | H : Some _ = Some _ |- _ => inversion H; subst; clear H
         | H : None = Some _ |- _ => discriminate H
         | H : forall h, Some ?a = Some h -> _ |- _ => specialize (H a eq_refl)
         | H : forall a b, Some ?x = Some a -> Some ?y = Some b -> _ |- _ =>
             specialize (H x y eq_refl eq_refl)
         | H : forall h, None = Some h -> _ |- _ => clear H
         | H : forall a b, None = Some a -> _ |- _ => clear H
         | H : forall a b, Some _ = Some a -> None = Some b -> _ |- _ => clear H
         | H : forall h, ?s = Some h -> _, E : ?s = Some ?x |- _ =>
             specialize (H x E)
         | H : forall a b, ?s = Some a -> ?t = Some b -> _,
           E : ?s = Some ?x, E' : ?t = Some ?y |- _ =>
             specialize (H x y E E')
         | H : forall a b, Some ?x = Some a -> ?t = Some b -> _,
           E' : ?t = Some ?y |- _ =>
             specialize (H x y eq_refl E')
         | H : forall a b, ?s = Some a -> Some ?y = Some b -> _,
           E : ?s = Some ?x |- _ =>
             specialize (H x y E eq_refl)
         end.

Lemma act_handles_ok (a : Action) (w : World) :
  handles_ok w ->
  handles_ok (run (act a) w) /\ next_id w <= next_id (run (act a) w).
Proof.
  unfold handles_ok. open_world w.
  destruct a as [env| |env|d| | |env ev|k|r]; try open_env env;
    try destruct ev; try destruct k;
    intros (H1 & H2 & H3); run_methods;
    cbv beta iota zeta delta [ap input_stream output_stream next_id] in *;
    (split; [|lia]); repeat split; intros; use_handles; try lia.
Qed.

Lemma exec_handles_ok (acts : list Action) (w : World) :
  handles_ok w -> handles_ok (exec acts w).
Proof.
  revert w. induction acts as [|a acts IH]; intros w H; [exact H|].
  rewrite exec_cons. apply IH. now apply act_handles_ok.
Qed.

Lemma init_handles_ok : handles_ok init_world.
Proof. repeat split; cbn; intros; discriminate. Qed.

Lemma act_out_of_reach (h : nat) (a : Action) (w : World) :
  out_of_reach h w ->
  out_of_reach h (run (act a) w) /\
  ~ In (CloseStream h) (since w (run (act a) w)).
Proof.
  unfold out_of_reach. open_world w.
  destruct a as [env| |env|d| | |env ev|k|r]; try open_env env;
    try destruct ev; try destruct k;
    intros (H1 & H2 & H3); run_methods; read_trace;
    cbv beta iota zeta delta [ap input_stream output_stream next_id is_capturing] in *;
    cbn [In];
    repeat split; try lia; try assumption;
    try (intros; try discriminate; try (specialize (H3 eq_refl));
         intuition (try discriminate; try congruence; try lia); fail);
    try (intros E; inversion E; lia);
    try (intros _ E; inversion E; lia).
Qed.

Lemma exec_out_of_reach (h : nat) (acts : list Action) (w : World) :
  out_of_reach h w -> ~ In (CloseStream h) (since w (exec acts w)).
Proof.
  revert w. induction acts as [|a acts IH]; intros w H.
  - cbn. now rewrite since_refl.
  - rewrite exec_since. intros I. apply in_app_or in I.
    destruct (act_out_of_reach a H) as (H' & N).
    destruct I as [I|I]; [exact (N I) | exact (IH _ H' I)].
Qed.

Lemma act_no_terminate (a : Action) (w : World) :
  a <> CallCleanup ->
  ~ In Terminate (since w (run (act a) w)) /\
  ~ In ExecutorShutdown (since w (run (act a) w)).
Proof.
  open_world w.
  destruct a as [env| |env|d| | |env ev|k|r]; try open_env env;
    try destruct ev; try destruct k; intros N; try congruence; clear N;
    run_methods; read_trace; cbn [In]; split; intuition discriminate.
Qed.

Lemma exec_no_terminate (acts : list Action) (w : World) :
  ~ In CallCleanup acts ->
  ~ In Terminate (since w (exec acts w)) /\
  ~ In ExecutorShutdown (since w (exec acts w)).
Proof.
  revert w. induction acts as [|a acts IH]; intros w N.
  - cbn. rewrite since_refl. auto.
  - rewrite exec_since.
    destruct (@act_no_terminate a w) as (N1 & N2);
      [intros ->; apply N; left; reflexivity|].
    destruct (IH (run (act a) w)) as (M1 & M2);
      [intros I; apply N; right; exact I|].
    split; intros I; apply in_app_or in I; tauto.
Qed.

(** X4: the program never closes a capture stream that opened and did
    not start.  In any continuation of a run, whatever is called, handled
    or iterated afterwards, [close] is never called on that stream; and as
    long as [cleanup] is not called the audio layer is not terminated
    either, so the stream stays open: only the [audio.terminate()] of
    [cleanup] can release it. *)
Theorem unstarted_stream_left_to_terminate
    (before after : list Action) (env : Env) (e : Exn) :
  let w := exec before init_world in
  is_capturing (ap w) = false ->
  open_input_raises env = None ->
  start_stream_raises env = Some e ->
  let h := next_id w in
  let w1 := run (start_capture env) w in
  In (OpenInput h) (since w w1) /\
  ~ In (CloseStream h) (since w (exec after w1)) /\
  (~ In CallCleanup after -> ~ In Terminate (since w (exec after w1))).
Proof.
  cbv zeta. intros Hc Ho Hs.
  pose proof (exec_handles_ok before init_handles_ok) as (_ & F & _).
  destruct (@start_capture_unstarted env e _ Hc Ho Hs) as (C1 & S1).
  set (w := exec before init_world) in *.
  set (w1 := run (start_capture env) w) in *.
  assert (E1 : extends w w1) by (exact (act_extends (CallStartCapture env) w)).
  assert (R : out_of_reach (next_id w) w1).
  { assert (N : next_id w1 = S (next_id w) /\ output_stream (ap w1) = output_stream (ap w)).
    { subst w1. clearbody w. clear - Hc Ho Hs. open_world w. open_env env.
      cbn in Hc, Ho, Hs. subst. unfold_methods. auto. }
    destruct N as (N1 & N2). repeat split.
    - lia.
    - rewrite N2. intros O. apply F in O. lia.
    - rewrite C1. discriminate. }
  split; [|split].
  - rewrite S1. cbn. auto.
  - rewrite (proj2 (extends_trans E1 (exec_extends after w1))).
    intros I. apply in_app_or in I. destruct I as [I|I].
    + rewrite S1 in I. cbn in I. intuition discriminate.
    + exact (exec_out_of_reach after R I).
  - intros N.
    rewrite (proj2 (extends_trans E1 (exec_extends after w1))).
    intros I. apply in_app_or in I. destruct I as [I|I].
    + rewrite S1 in I. cbn in I. intuition discriminate.
    + exact (proj1 (@exec_no_terminate after w1 N) I).
Qed.

Lemma unstarted_stream_left_to_terminate_witness :
  let env := {| open_input_raises := None;
                start_stream_raises := Some "Stream not ready";
                open_output_raises := None; cancel_raises := None |} in
  let w1 := run (start_capture env) init_world in
  ~ In (CloseStream 0)
       (since init_world
          (exec [Handle quiet (SESSION_UPDATED "sess_1"); CallCleanup] w1)) /\
  ~ In Terminate
       (since init_world
          (exec [Handle quiet (SESSION_UPDATED "sess_1"); CallStopCapture] w1)).
Proof.
  cbv zeta. split.
  - exact (proj1 (proj2 (@unstarted_stream_left_to_terminate []
                    [Handle quiet (SESSION_UPDATED "sess_1"); CallCleanup]
                    {| open_input_raises := None;
                       start_stream_raises := Some "Stream not ready";
                       open_output_raises := None; cancel_raises := None |}
                    "Stream not ready" eq_refl eq_refl eq_refl))).
  - apply (proj2 (proj2 (@unstarted_stream_left_to_terminate []
                    [Handle quiet (SESSION_UPDATED "sess_1"); CallStopCapture]
                    {| open_input_raises := None;
                       start_stream_raises := Some "Stream not ready";
                       open_output_raises := None; cancel_raises := None |}
                    "Stream not ready" eq_refl eq_refl eq_refl))).
    cbn [In]. intuition discriminate.
Defined.

(** ** One output stream *)

Lemma open_outputs_app (tr d : list Effect) :
  open_outputs (tr ++ d) = fold_left stream_step d (open_outputs tr).
Proof. unfold open_outputs. apply fold_left_app. Qed.

Ltac decide_handles :=
  repeat match goal with
         | |- context [Nat.eq_dec ?a ?b] =>
             destruct (Nat.eq_dec a b); subst; cbn
         end.

Lemma act_output_ok (a : Action) (w : World) :
  handles_ok w -> output_ok w -> output_ok (run (act a) w).
Proof.
  unfold handles_ok, output_ok. open_world w.
  destruct a as [env| |env|d| | |env ev|k|r]; try open_env env;
    try destruct ev; try destruct k;
    intros (H1 & H2 & H3) (O1 & O2 & O3); run_methods;
    cbv beta iota zeta delta [ap input_stream output_stream next_id is_playing trace] in *;
    repeat rewrite <- app_assoc; cbn [app];
    rewrite ?open_outputs_app, ?O3; cbn;
    decide_handles;
    repeat split; intros; try discriminate; try congruence; auto;
    use_handles; try lia; try congruence;
    destruct ostream as [o|]; cbn; decide_handles; try reflexivity;
    try (specialize (O1 eq_refl); discriminate);
    use_handles; congruence.
Qed.

Lemma init_output_ok : output_ok init_world.
Proof. repeat split; cbn; intros; discriminate. Qed.

Lemma exec_output_ok (acts : list Action) (w : World) :
  handles_ok w -> output_ok w -> output_ok (exec acts w).
Proof.
  revert w. induction acts as [|a acts IH]; intros w H O; [exact O|].
  rewrite exec_cons. apply IH.
  - now apply act_handles_ok.
  - now apply act_output_ok.
Qed.

(** X5: at every point of every run at most one output stream is open:
    the streams opened for output and not closed since are exactly the
    stream stored in [output_stream], and one is stored exactly while
    playback is active. *)
Theorem one_output_stream (acts : list Action) :
  let w := exec acts init_world in
  open_outputs (trace w) = current (output_stream (ap w)) /\
  List.length (open_outputs (trace w)) <= 1 /\
  (is_playing (ap w) = true <-> output_stream (ap w) <> None).
Proof.
  cbv zeta.
  destruct (exec_output_ok acts init_handles_ok init_output_ok) as (O1 & O2 & O3).
  split; [exact O3|]. split.
  - rewrite O3. destruct (output_stream (ap (exec acts init_world))); cbn; lia.
  - split; [exact O2|].
    intros N. destruct (is_playing (ap (exec acts init_world))); [reflexivity|].
    now specialize (O1 eq_refl).
Qed.

Example two_turns_one_stream :
  let w := exec [CallStartPlayback quiet;
                 Handle quiet INPUT_AUDIO_BUFFER_SPEECH_STARTED;
                 Handle quiet INPUT_AUDIO_BUFFER_SPEECH_STOPPED;
                 Handle quiet INPUT_AUDIO_BUFFER_SPEECH_STOPPED]
                init_world in
  opened (trace w) = [0; 2] /\ open_outputs (trace w) = [2].
Proof. vm_compute. auto. Qed.

(** ** Cleanup *)

Lemma tick_idle (k : Tick) (w : World) :
  is_capturing (ap w) = false ->
  is_playing (ap w) = false ->
  let w' := run (tick k) w in
  trace w' = trace w /\ ap w' = ap w.
Proof.
  open_world w. cbn [ap is_capturing is_playing]. intros -> ->.
  destruct k; run_methods; auto.
Qed.

Lemma run_ticks_idle (ks : list Tick) (w : World) :
  is_capturing (ap w) = false ->
  is_playing (ap w) = false ->
  let w' := run_ticks ks w in
  trace w' = trace w /\ ap w' = ap w.
Proof.
  revert w. induction ks as [|k ks IH]; intros w Hc Hp; cbv zeta; [auto|].
  rewrite run_ticks_cons.
  destruct (tick_idle k w Hc Hp) as (T1 & A1).
  destruct (IH (run (tick k) w)) as (T2 & A2); [congruence | congruence |].
  split; congruence.
Qed.

Lemma act_transmit_idle_ok (a : Action) (w : World) :
  transmit_idle_ok w -> transmit_idle_ok (run (act a) w).
Proof.
  unfold transmit_idle_ok. open_world w.
  destruct a as [env| |env|d| | |env ev|k|r]; try open_env env;
    try destruct ev; try destruct k;
    intros H; run_methods;
    cbv beta iota zeta delta [ap is_capturing audio_send_queue] in *;
    rewrite ?drain_nil; intros; try discriminate; auto;
    try (specialize (H eq_refl); discriminate).
Qed.

Lemma exec_transmit_idle_ok (acts : list Action) (w : World) :
  transmit_idle_ok w -> transmit_idle_ok (exec acts w).
Proof.
  revert w. induction acts as [|a acts IH]; intros w H; [exact H|].
  rewrite exec_cons. now apply IH, act_transmit_idle_ok.
Qed.

Lemma init_transmit_idle_ok : transmit_idle_ok init_world.
Proof. intros _. reflexivity. Qed.

(** X6: [cleanup], at any point of any run, returns normally with both
    lines inactive, both queues empty and no output stream open; it stops
    capture, then playback, then terminates the audio layer and shuts the
    executor down; and whatever the worker threads do afterwards leaves
    no effect at all: nothing is read, written, sent or logged. *)
Theorem cleanup_quiesces (acts : list Action) (ks : list Tick) :
  let w := exec acts init_world in
  let w1 := run cleanup w in
  outcome cleanup w = Return tt /\
  is_capturing (ap w1) = false /\
  is_playing (ap w1) = false /\
  audio_queue (ap w1) = [] /\
  audio_send_queue (ap w1) = [] /\
  output_stream (ap w1) = None /\
  open_outputs (trace w1) = [] /\
  since w w1 =
    since w (run stop_playback (run stop_capture w))
    ++ [Terminate; ExecutorShutdown; Log INFO "Audio processor cleaned up"] /\
  since w1 (run_ticks ks w1) = [] /\
  ap (run_ticks ks w1) = ap w1.
Proof.
  cbv zeta.
  pose proof (exec_playback_ok acts init_playback_ok) as P.
  pose proof (exec_transmit_idle_ok acts init_transmit_idle_ok) as Q.
  pose proof (exec_output_ok acts init_handles_ok init_output_ok) as O.
  pose proof (act_output_ok CallCleanup (exec_handles_ok acts init_handles_ok) O)
    as (_ & _ & O3').
  cbn [act] in O3'.
  set (w := exec acts init_world) in *.
  assert (A : outcome cleanup w = Return tt /\
              is_capturing (ap (run cleanup w)) = false /\
              is_playing (ap (run cleanup w)) = false /\
              audio_queue (ap (run cleanup w)) = [] /\
              audio_send_queue (ap (run cleanup w)) = [] /\
              output_stream (ap (run cleanup w)) = None /\
              since w (run cleanup w) =
                since w (run stop_playback (run stop_capture w))
                ++ [Terminate; ExecutorShutdown; Log INFO "Audio processor cleaned up"]).
  { clear O3'. clearbody w. unfold playback_ok, transmit_idle_ok, output_ok in *.
    destruct O as (O1 & _ & _). open_world w.
    cbv beta iota zeta delta
      [ap is_playing is_capturing audio_queue audio_send_queue output_stream] in *.
    run_methods; read_trace; rewrite ?drain_nil;
      repeat split; auto. }
  destruct A as (A1 & A2 & A3 & A4 & A5 & A6 & A7).
  destruct (run_ticks_idle ks (run cleanup w) A2 A3) as (T & E).
  repeat (split; [assumption|]).
  split; [now rewrite O3', A6|].
  split; [assumption|].
  split; [now apply since_same | exact E].
Qed.

(** * Further properties of the event handler *)

(** X7: an event that only informs (response created, audio done,
    response done, a server error, item created, or any unknown type) is
    handled without raising and without touching the audio processor, the
    session flag or the threads: its only effects are log lines and
    console lines.  In particular a server error stops neither capture
    nor playback. *)
Theorem informational_events_only_report (env : Env) (ev : Event) (w : World) :
  informational ev = true ->
  let w' := run (_handle_event env ev) w in
  outcome (_handle_event env ev) w = Return tt /\
  ap w' = ap w /\
  session_ready w' = session_ready w /\
  threads w' = threads w /\
  next_id w' = next_id w /\
  extends w w' /\
  forallb is_report (since w w') = true.
Proof.
  open_world w.
  destruct ev; cbn [informational]; intros H; try discriminate H;
    unfold_methods; (repeat split; try solve_extends); read_trace; reflexivity.
Qed.

Lemma informational_events_only_report_witness :
  let w := exec [CallStartPlayback quiet; Handle quiet (SESSION_UPDATED "sess_1")]
                init_world in
  let w' := run (_handle_event quiet (ERROR_EVENT "rate limit exceeded")) w in
  is_capturing (ap w') = true /\ is_playing (ap w') = true /\
  since w w' = [Log DEBUG "Received event: error";
                Log ERROR "VoiceLive error: rate limit exceeded";
                Print "Error: rate limit exceeded"].
Proof.
  cbv zeta.
  destruct (@informational_events_only_report quiet
              (ERROR_EVENT "rate limit exceeded")
              (exec [CallStartPlayback quiet; Handle quiet (SESSION_UPDATED "sess_1")]
                    init_world) eq_refl)
    as (_ & H2 & _).
  rewrite H2. repeat split.
Defined.



(** * Further properties of the playback line *)

Lemma act_playback_order (a : Action) (w : World) :
  let w' := run (act a) w in
  subseq (played (since w w') ++ audio_queue (ap w'))
         (audio_queue (ap w) ++ offered a).
Proof.
  destruct a as [env| |env|d| | |env ev|k|r].
  8: { cbv zeta. cbn [act offered]. rewrite app_nil_r.
       destruct (tick_playback k w) as (taken & E & S).
       rewrite <- E. apply subseq_app; [exact S | apply subseq_refl]. }
  all: open_world w; try open_env env; try destruct ev;
    run_methods; read_trace; cbn; rewrite ?drain_nil, ?app_nil_r;
    first [ apply subseq_refl | apply subseq_nil_l | apply subseq_app_l ].
Qed.

(** X10: from any world and over any run, with playback stopped and
    restarted at will, the frames written to the device followed by the
    frames still queued are, in order, among the frames queued at the
    start followed by the frames offered to the playback line since (by
    AudioDelta events or by [queue_audio]): nothing is played that was not
    received, nothing twice, and never out of order. *)
Theorem playback_order (acts : list Action) (w : World) :
  let w' := exec acts w in
  subseq (played (since w w') ++ audio_queue (ap w'))
         (audio_queue (ap w) ++ flat_map offered acts).
Proof.
  revert w. induction acts as [|a acts IH]; intros w; cbv zeta.
  - cbn. rewrite since_refl. cbn. rewrite app_nil_r. apply subseq_refl.
  - rewrite exec_since, exec_cons. cbn [flat_map].
    rewrite played_app, <- app_assoc.
    pose proof (act_playback_order a w) as S1.
    pose proof (IH (run (act a) w)) as S2. cbv zeta in S1, S2.
    eapply subseq_trans.
    + apply subseq_app; [apply subseq_refl | exact S2].
    + rewrite !app_assoc. apply subseq_app; [exact S1 | apply subseq_refl].
Qed.

Example playback_order_across_barge_in :
  let acts := [CallStartPlayback quiet;
               Handle quiet (RESPONSE_AUDIO_DELTA [Byte.x01]);
               Handle quiet (RESPONSE_AUDIO_DELTA [Byte.x02]);
               Step (PlaybackTick 1 None);
               Handle quiet INPUT_AUDIO_BUFFER_SPEECH_STARTED;
               Handle quiet (RESPONSE_AUDIO_DELTA [Byte.x03]);
               Handle quiet INPUT_AUDIO_BUFFER_SPEECH_STOPPED;
               Handle quiet (RESPONSE_AUDIO_DELTA [Byte.x04]);
               Step (PlaybackTick 3 None)] in
  played (since init_world (exec acts init_world)) = [[Byte.x01]; [Byte.x04]].
Proof. vm_compute. reflexivity. Qed.

Lemma handle_delta_active (env : Env) (d : bytes) (w : World) :
  is_playing (ap w) = true ->
  let w' := run (_handle_event env (RESPONSE_AUDIO_DELTA d)) w in
  audio_queue (ap w') = audio_queue (ap w) ++ [d] /\
  is_playing (ap w') = true /\
  output_stream (ap w') = output_stream (ap w) /\
  threads w' = threads w.
Proof.
  open_world w. cbn [ap is_playing]. intros ->. unfold_methods. auto.
Qed.

(** X11: while playback is active, a run of AudioDelta events appends
    their frames to the playback queue in arrival order, and the playback
    worker, alive and its writes succeeding, writes the queue to the
    device in that order, one frame per iteration, passing over empty
    frames. *)
Theorem deltas_played_in_order
    (env : Env) (ds : list bytes) (t h : nat) (w : World) :
  is_playing (ap w) = true ->
  output_stream (ap w) = Some h ->
  alive t PlaybackWorker w = true ->
  let w' := exec (map (fun d => Handle env (RESPONSE_AUDIO_DELTA d)) ds) w in
  audio_queue (ap w') = audio_queue (ap w) ++ ds /\
  forall n,
    played (since w' (run_ticks (repeat (PlaybackTick t None) n) w')) =
    filter nonempty_bytes (firstn n (audio_queue (ap w) ++ ds)).
Proof.
  intros Hp Ho Ha. cbv zeta.
  assert (A : audio_queue (ap (exec (map (fun d => Handle env (RESPONSE_AUDIO_DELTA d)) ds) w))
              = audio_queue (ap w) ++ ds /\
              is_playing (ap (exec (map (fun d => Handle env (RESPONSE_AUDIO_DELTA d)) ds) w))
              = true /\
              output_stream (ap (exec (map (fun d => Handle env (RESPONSE_AUDIO_DELTA d)) ds) w))
              = Some h /\
              alive t PlaybackWorker
                (exec (map (fun d => Handle env (RESPONSE_AUDIO_DELTA d)) ds) w) = true).
  { revert w Hp Ho Ha. induction ds as [|d ds IH]; intros w Hp Ho Ha.
    - cbn. rewrite app_nil_r. auto.
    - cbn [map]. rewrite exec_cons. cbn [act].
      destruct (handle_delta_active env d w Hp) as (Q1 & P1 & O1 & T1).
      destruct (IH (run (_handle_event env (RESPONSE_AUDIO_DELTA d)) w))
        as (Q2 & P2 & O2 & A2).
      + exact P1.
      + congruence.
      + unfold alive in *. now rewrite T1.
      + rewrite Q2, Q1, <- app_assoc. auto. }
  destruct A as (Q & P & O & A).
  split; [exact Q|].
  intros n.
  destruct (playback_writes t n _ P O A) as (W & _).
  now rewrite W, Q.
Qed.

Lemma deltas_played_in_order_witness :
  let w := exec [CallStartPlayback quiet] init_world in
  let ds := [[Byte.x01; Byte.x02]; []; [Byte.x03; Byte.x04]] in
  let w' := exec (map (fun d => Handle quiet (RESPONSE_AUDIO_DELTA d)) ds) w in
  played (since w' (run_ticks (repeat (PlaybackTick 1 None) 3) w')) =
  [[Byte.x01; Byte.x02]; [Byte.x03; Byte.x04]].
Proof.
  cbv zeta.
  destruct (@deltas_played_in_order quiet
              [[Byte.x01; Byte.x02]; []; [Byte.x03; Byte.x04]] 1 0
              (exec [CallStartPlayback quiet] init_world)
              eq_refl eq_refl eq_refl) as (_ & H).
  exact (H 3).
Defined.

(** ** A worker that dies *)

Lemma forallb_filter_weaken {A} (P Q : A -> bool) (l : list A) :
  forallb P l = true -> forallb P (filter Q l) = true.
Proof.
  induction l as [|x l IH]; cbn; [auto|].
  intros H. apply andb_true_iff in H. destruct H as [Hx Hl].
  destruct (Q x); cbn; [rewrite Hx|]; auto.
Qed.

Lemma no_worker_not_alive (t : nat) (k : Worker) (l : list (nat * Worker)) :
  forallb (fun p => negb (worker_eqb (snd p) k)) l = true ->
  existsb (is_thread t k) l = false.
Proof.
  induction l as [|[n k'] l IH]; cbn; [auto|].
  intros H. apply andb_true_iff in H. destruct H as [Hx Hl].
  rewrite (IH Hl). unfold is_thread. cbn.
  apply negb_true_iff in Hx. rewrite Hx. now rewrite andb_false_r.
Qed.

Lemma exit_of_only_worker (t : nat) (k : Worker) (l : list (nat * Worker)) :
  forallb (fun p => negb (worker_eqb (snd p) k) || Nat.eqb (fst p) t) l = true ->
  forallb (fun p => negb (worker_eqb (snd p) k))
          (filter (fun p => negb (is_thread t k p)) l) = true.
Proof.
  induction l as [|[n k'] l IH]; cbn; [auto|].
  intros H. apply andb_true_iff in H. destruct H as [Hx Hl].
  unfold is_thread at 1. cbn [fst snd].
  destruct (worker_eqb k' k) eqn:Ek; cbn in *.
  - rewrite Hx. cbn. auto.
  - rewrite andb_false_r. cbn. rewrite Ek. cbn. auto.
Qed.

Ltac no_worker_goal Hn :=
  first [ exact Hn
        | apply forallb_filter_weaken; exact Hn
        | rewrite forallb_app; apply andb_true_intro;
          split; [exact Hn | reflexivity] ].

Ltac dead_worker Hn :=
  match goal with
  | E : existsb (is_thread ?t ?k) ?l = true |- _ =>
      exfalso; rewrite (no_worker_not_alive t k l Hn) in E; discriminate E
  end.

(** With playback active and no playback worker alive, an action that
    does not stop playback writes nothing, starts no playback worker, and
    only lets the queue grow. *)
Lemma act_stalled_playback (a : Action) (w : World) :
  is_playing (ap w) = true ->
  no_playback_worker w = true ->
  leaves_playback_on a = true ->
  let w' := run (act a) w in
  is_playing (ap w') = true /\
  no_playback_worker w' = true /\
  played (since w w') = [] /\
  audio_queue (ap w') = audio_queue (ap w) ++ offered a.
Proof.
  unfold no_playback_worker. open_world w.
  cbn [ap is_playing audio_queue threads]. intros -> Hn Hl.
  destruct a as [env| |env|d| | |env ev|k|r]; try open_env env;
    try destruct ev; try destruct k; try discriminate Hl; clear Hl;
    run_methods; try dead_worker Hn;
    read_trace; cbn [threads offered];
    rewrite ?app_nil_r, ?drain_nil;
    (repeat split; try reflexivity); no_worker_goal Hn.
Qed.

Lemma exec_stalled_playback (acts : list Action) (w : World) :
  is_playing (ap w) = true ->
  no_playback_worker w = true ->
  forallb leaves_playback_on acts = true ->
  let w' := exec acts w in
  is_playing (ap w') = true /\
  played (since w w') = [] /\
  audio_queue (ap w') = audio_queue (ap w) ++ flat_map offered acts.
Proof.
  revert w. induction acts as [|a acts IH]; intros w Hp Hn Hl; cbv zeta.
  - cbn. rewrite since_refl, app_nil_r. auto.
  - cbn [forallb] in Hl. apply andb_true_iff in Hl. destruct Hl as [Ha Hl].
    rewrite exec_since, exec_cons. cbn [flat_map].
    destruct (act_stalled_playback a w Hp Hn Ha) as (P1 & N1 & W1 & Q1).
    destruct (IH _ P1 N1 Hl) as (P2 & W2 & Q2).
    rewrite played_app, W1, W2, Q2, Q1, <- app_assoc. auto.
Qed.

(** X12: when the write of the one playback worker raises, the worker
    logs the error and returns, the frame it had taken is lost, and
    [is_playing] stays true.  From then on, until playback is stopped
    (by SpeechStarted, [stop_playback] or cleanup), nothing is written to
    the device whatever arrives and whatever is called (SpeechStopped and
    [start_playback] start no new worker, playback being active), and
    every frame offered piles up in the queue. *)
Theorem playback_stalls_after_write_error
    (t h : nat) (e : Exn) (f : bytes) (q : list bytes)
    (acts : list Action) (w : World) :
  is_playing (ap w) = true ->
  output_stream (ap w) = Some h ->
  audio_queue (ap w) = f :: q ->
  nonempty_bytes f = true ->
  alive t PlaybackWorker w = true ->
  only_worker t PlaybackWorker w = true ->
  forallb leaves_playback_on acts = true ->
  let w1 := run (tick (PlaybackTick t (Some e))) w in
  let w2 := exec acts w1 in
  since w w1 = [Log ERROR ("Error in audio playback: " ++ e)] /\
  alive t PlaybackWorker w1 = false /\
  is_playing (ap w2) = true /\
  played (since w w2) = [] /\
  audio_queue (ap w2) = q ++ flat_map offered acts.
Proof.
  intros Hp Ho Hq Hf Ha Hw Hl. cbv zeta.
  assert (A : since w (run (tick (PlaybackTick t (Some e))) w)
              = [Log ERROR ("Error in audio playback: " ++ e)] /\
              is_playing (ap (run (tick (PlaybackTick t (Some e))) w)) = true /\
              audio_queue (ap (run (tick (PlaybackTick t (Some e))) w)) = q /\
              threads (run (tick (PlaybackTick t (Some e))) w)
              = filter (fun p => negb (is_thread t PlaybackWorker p)) (threads w)).
  { clear Hl Hw. open_world w. unfold alive in Ha.
    cbn [ap is_playing output_stream audio_queue threads] in *. subst.
    unfold_methods. rewrite Ha. destruct f; [discriminate Hf|].
    unfold_methods. read_trace. auto. }
  destruct A as (S1 & P1 & Q1 & T1).
  assert (N1 : no_playback_worker (run (tick (PlaybackTick t (Some e))) w) = true).
  { unfold no_playback_worker. rewrite T1. now apply exit_of_only_worker. }
  destruct (exec_stalled_playback acts _ P1 N1 Hl) as (P2 & W2 & Q2).
  split; [exact S1|]. split.
  - unfold alive. now apply no_worker_not_alive.
  - split; [exact P2|]. split; [|now rewrite Q2, Q1].
    rewrite (proj2 (extends_trans (tick_extends _ w) (exec_extends acts _))).
    now rewrite played_app, S1, W2.
Qed.

Lemma playback_stalls_after_write_error_witness :
  let w := exec [CallStartPlayback quiet;
                 Handle quiet (RESPONSE_AUDIO_DELTA [Byte.x01])] init_world in
  let acts := [Handle quiet (RESPONSE_AUDIO_DELTA [Byte.x02]);
               Handle quiet INPUT_AUDIO_BUFFER_SPEECH_STOPPED;
               Step (PlaybackTick 1 None);
               Handle quiet (RESPONSE_AUDIO_DELTA [Byte.x03])] in
  let w2 := exec acts (run (tick (PlaybackTick 1 (Some "Stream closed"))) w) in
  played (since w w2) = [] /\
  audio_queue (ap w2) = [[Byte.x02]; [Byte.x03]].
Proof.
  cbv zeta.
  destruct (@playback_stalls_after_write_error 1 0 "Stream closed" [Byte.x01] []
              [Handle quiet (RESPONSE_AUDIO_DELTA [Byte.x02]);
               Handle quiet INPUT_AUDIO_BUFFER_SPEECH_STOPPED;
               Step (PlaybackTick 1 None);
               Handle quiet (RESPONSE_AUDIO_DELTA [Byte.x03])]
              (exec [CallStartPlayback quiet;
                     Handle quiet (RESPONSE_AUDIO_DELTA [Byte.x01])] init_world)
              eq_refl eq_refl eq_refl eq_refl eq_refl eq_refl eq_refl)
    as (_ & _ & _ & H4 & H5).
  exact (conj H4 H5).
Defined.

Lemma act_stalled_capture (a : Action) (w : World) :
  is_capturing (ap w) = true ->
  no_capture_worker w = true ->
  leaves_capture_on a = true ->
  let w' := run (act a) w in
  is_capturing (ap w') = true /\
  no_capture_worker w' = true /\
  input_stream (ap w') = input_stream (ap w) /\
  frames_read (since w w') = [].
Proof.
  unfold no_capture_worker. open_world w.
  cbn [ap is_capturing input_stream threads]. intros -> Hn Hl.
  destruct a as [env| |env|d| | |env ev|k|r]; try open_env env;
    try destruct ev; try destruct k; try discriminate Hl; clear Hl;
    run_methods; try dead_worker Hn;
    read_trace; cbn [threads];
    (repeat split; try reflexivity); no_worker_goal Hn.
Qed.

Lemma exec_stalled_capture (acts : list Action) (w : World) :
  is_capturing (ap w) = true ->
  no_capture_worker w = true ->
  forallb leaves_capture_on acts = true ->
  let w' := exec acts w in
  is_capturing (ap w') = true /\
  input_stream (ap w') = input_stream (ap w) /\
  frames_read (since w w') = [].
Proof.
  revert w. induction acts as [|a acts IH]; intros w Hc Hn Hl; cbv zeta.
  - cbn. rewrite since_refl. auto.
  - cbn [forallb] in Hl. apply andb_true_iff in Hl. destruct Hl as [Ha Hl].
    rewrite exec_since, exec_cons.
    destruct (act_stalled_capture a w Hc Hn Ha) as (C1 & N1 & I1 & R1).
    destruct (IH _ C1 N1 Hl) as (C2 & I2 & R2).
    rewrite frames_read_app, R1, R2, I2, I1. auto.
Qed.

(** X13: when the read of the one capture worker raises, the worker logs
    the error and returns, and [is_capturing] stays true with the input
    stream still stored.  From then on, until capture is stopped (by
    [stop_capture] or cleanup), no frame is read from the microphone
    whatever arrives and whatever is called: SessionUpdated and
    [start_capture] start no new worker, capture being active. *)
Theorem capture_stalls_after_read_error
    (t h : nat) (e : Exn) (acts : list Action) (w : World) :
  is_capturing (ap w) = true ->
  input_stream (ap w) = Some h ->
  alive t CaptureWorker w = true ->
  only_worker t CaptureWorker w = true ->
  forallb leaves_capture_on acts = true ->
  let w1 := run (tick (CaptureTick t (inl e))) w in
  let w2 := exec acts w1 in
  since w w1 = [Log ERROR ("Error in audio capture: " ++ e)] /\
  alive t CaptureWorker w1 = false /\
  is_capturing (ap w2) = true /\
  input_stream (ap w2) = Some h /\
  frames_read (since w w2) = [].
Proof.
  intros Hc Hi Ha Hw Hl. cbv zeta.
  assert (A : since w (run (tick (CaptureTick t (inl e))) w)
              = [Log ERROR ("Error in audio capture: " ++ e)] /\
              is_capturing (ap (run (tick (CaptureTick t (inl e))) w)) = true /\
              input_stream (ap (run (tick (CaptureTick t (inl e))) w)) = Some h /\
              threads (run (tick (CaptureTick t (inl e))) w)
              = filter (fun p => negb (is_thread t CaptureWorker p)) (threads w)).
  { clear Hl Hw. open_world w. unfold alive in Ha.
    cbn [ap is_capturing input_stream threads] in *. subst.
    unfold_methods. rewrite Ha. unfold_methods. read_trace. auto. }
  destruct A as (S1 & C1 & I1 & T1).
  assert (N1 : no_capture_worker (run (tick (CaptureTick t (inl e))) w) = true).
  { unfold no_capture_worker. rewrite T1. now apply exit_of_only_worker. }
  destruct (exec_stalled_capture acts _ C1 N1 Hl) as (C2 & I2 & R2).
  split; [exact S1|]. split.
  - unfold alive. now apply no_worker_not_alive.
  - split; [exact C2|]. split; [now rewrite I2, I1|].
    rewrite (proj2 (extends_trans (tick_extends _ w) (exec_extends acts _))).
    now rewrite frames_read_app, S1, R2.
Qed.

Lemma capture_stalls_after_read_error_witness :
  let w := exec [Handle quiet (SESSION_UPDATED "sess_1")] init_world in
  let acts := [Step (CaptureTick 1 (inr [Byte.x01; Byte.x02]));
               Handle quiet (SESSION_UPDATED "sess_1");
               Step (CaptureTick 1 (inr [Byte.x03; Byte.x04]))] in
  let w2 := exec acts (run (tick (CaptureTick 1 (inl "Input overflowed"))) w) in
  is_capturing (ap w2) = true /\ frames_read (since w w2) = [].
Proof.
  cbv zeta.
  destruct (@capture_stalls_after_read_error 1 0 "Input overflowed"
              [Step (CaptureTick 1 (inr [Byte.x01; Byte.x02]));
               Handle quiet (SESSION_UPDATED "sess_1");
               Step (CaptureTick 1 (inr [Byte.x03; Byte.x04]))]
              (exec [Handle quiet (SESSION_UPDATED "sess_1")] init_world)
              eq_refl eq_refl eq_refl eq_refl eq_refl)
    as (_ & _ & H3 & _ & H5).
  exact (conj H3 H5).
Defined.

(** * The event loop and the run of the assistant *)

Lemma tick_returns (k : Tick) (w : World) : tick k w = (Return tt, run (tick k) w).
Proof. open_world w. destruct k; run_methods; reflexivity. Qed.

Lemma loop_turn_returns (r : option Exn) (w : World) :
  run_scheduled r w = (Return tt, run (run_scheduled r) w).
Proof. open_world w. run_methods; reflexivity. Qed.

(** No method, worker or coroutine ends with an interrupt or a
    cancellation of its own. *)
Lemma act_never_escapes (a : Action) (w : World) (b : BaseExc) :
  outcome (act a) w <> Escape b.
Proof.
  open_world w.
  destruct a as [env| |env|d| | |env ev|k|r]; try open_env env;
    try destruct ev; try destruct k; run_methods; discriminate.
Qed.

Lemma set_trace_read (t : list Effect) (w : World) :
  trace (set_trace t w) = t /\
  ap (set_trace t w) = ap w /\
  session_ready (set_trace t w) = session_ready w /\
  threads (set_trace t w) = threads w /\
  scheduled (set_trace t w) = scheduled w /\
  audio_processor (set_trace t w) = audio_processor w.
Proof. destruct w. repeat split. Qed.

Lemma actions_of_cons (i : Incoming) (script : list Incoming) :
  actions_of (i :: script) = actions_of [i] ++ actions_of script.
Proof. unfold actions_of. cbn [flat_map]. now rewrite app_nil_r. Qed.

(** One item of the script that lets the loop go on is one action. *)
Lemma async_for_cons (i : Incoming) (a : Action) (rest : list Incoming) (w : World) :
  actions_of [i] = [a] ->
  async_for (i :: rest) w =
  match act a w with
  | (Return _, w') => async_for rest w'
  | (Raise e, w') => (Raise e, w')
  | (Escape b, w') => (Escape b, w')
  end.
Proof.
  destruct i as [env ev|k|r| | |e0]; cbn [actions_of flat_map app];
    intros E; inversion E; subst; reflexivity.
Qed.

(** A script that the loop handles to its end is handled item by item,
    and the loop goes on with what follows. *)
Lemma async_for_app (pre rest : list Incoming) (w : World) :
  outcome (async_for pre) w = Return tt ->
  run (async_for pre) w = exec (actions_of pre) w /\
  async_for (pre ++ rest) w = async_for rest (exec (actions_of pre) w).
Proof.
  revert w. induction pre as [|i pre IH]; intros w H.
  - split; reflexivity.
  - assert (S : (exists a, actions_of [i] = [a]) \/ actions_of [i] = []).
    { destruct i; cbn; eauto. }
    destruct S as [[a Ea]|En].
    + rewrite actions_of_cons, Ea. cbn [app]. rewrite exec_cons.
      unfold outcome, run in *. cbn [app].
      rewrite (@async_for_cons i a (pre ++ rest) w Ea).
      rewrite (@async_for_cons i a pre w Ea) in *.
      destruct (act a w) as [[[]|e|b] w1]; cbn [fst snd] in *;
        try discriminate H.
      exact (IH w1 H).
    + destruct i; try discriminate En; discriminate H.
Qed.

(** Whatever the script, the loop leaves the world that some of its
    actions, run in order, lead to. *)
Lemma async_for_shape (script : list Incoming) (w : World) :
  exists acts,
    incl acts (actions_of script) /\
    run (async_for script) w = exec acts w.
Proof.
  revert w. induction script as [|i script IH]; intros w.
  - exists []. split; [apply incl_refl | reflexivity].
  - assert (S : (exists a, actions_of [i] = [a]) \/ actions_of [i] = []).
    { destruct i; cbn; eauto. }
    rewrite actions_of_cons.
    destruct S as [[a Ea]|En].
    + rewrite Ea. unfold run. rewrite (@async_for_cons i a script w Ea).
      destruct (act a w) as [[[]|e|b] w1] eqn:E; cbn [snd].
      * destruct (IH w1) as (acts & I & R).
        exists (a :: acts). split.
        -- intros x [<-|Hx]; [left; reflexivity | right; exact (I x Hx)].
        -- rewrite exec_cons. unfold run in *. rewrite E. exact R.
      * exists [a]. split.
        -- intros x [<-|[]]. left. reflexivity.
        -- cbn. unfold run. now rewrite E.
      * exists [a]. split.
        -- intros x [<-|[]]. left. reflexivity.
        -- cbn. unfold run. now rewrite E.
    + exists []. split; [intros x []|].
      destruct i; try discriminate En; reflexivity.
Qed.

Lemma async_for_interrupt (script : list Incoming) (w : World) :
  outcome (async_for script) w = Escape KeyboardInterrupt -> In Interrupted script.
Proof.
  revert w. induction script as [|i script IH]; intros w H.
  - discriminate H.
  - assert (S : (exists a, actions_of [i] = [a]) \/ actions_of [i] = []).
    { destruct i; cbn; eauto. }
    destruct S as [[a Ea]|En].
    + right. unfold outcome in *. rewrite (@async_for_cons i a script w Ea) in H.
      pose proof (@act_never_escapes a w) as N. unfold outcome in N.
      destruct (act a w) as [[[]|e|b] w1]; cbn [fst] in *.
      * exact (IH w1 H).
      * discriminate H.
      * exfalso. exact (N b eq_refl).
    + destruct i; try discriminate En; try discriminate H. left. reflexivity.
Qed.

(** The event loop by cases on how the iteration ends. *)
Lemma process_events_cases (script : list Incoming) (w : World) :
  _process_events script w =
  match async_for script w with
  | (Return a, w') => (Return a, w')
  | (Escape KeyboardInterrupt, w') =>
      (Return tt, set_trace (trace w' ++ [Log INFO "Event processing interrupted"]) w')
  | (Raise e, w') =>
      (Raise e, set_trace (trace w' ++ [Log ERROR ("Error processing events: " ++ e)]) w')
  | (Escape CancelledError, w') => (Escape CancelledError, w')
  end.
Proof.
  unfold _process_events, try_except_interrupt.
  destruct (async_for script w) as [[[]|e|[]] w']; reflexivity.
Qed.

(** The world the event loop leaves is one that some actions of the
    script lead to, with at most a log line added. *)
Lemma process_events_shape (script : list Incoming) (w : World) :
  exists acts tail,
    incl acts (actions_of script) /\
    forallb is_report tail = true /\
    run (_process_events script) w =
      set_trace (trace (exec acts w) ++ tail) (exec acts w).
Proof.
  destruct (async_for_shape script w) as (acts & I & R).
  exists acts. unfold run in *. rewrite process_events_cases.
  destruct (async_for script w) as [[[]|e|[]] w1]; cbn [snd] in *; subst w1.
  - exists []. repeat split; [exact I|].
    rewrite app_nil_r. now destruct (exec acts w).
  - eexists [_]. repeat split; [exact I | reflexivity].
  - eexists [_]. repeat split; [exact I | reflexivity].
  - exists []. repeat split; [exact I|].
    rewrite app_nil_r. now destruct (exec acts w).
Qed.

Lemma actions_of_no_cleanup (script : list Incoming) (acts : list Action) :
  incl acts (actions_of script) -> ~ In CallCleanup acts.
Proof.
  intros I H. apply I in H. unfold actions_of in H.
  apply in_flat_map in H. destruct H as (i & _ & H).
  destruct i; cbn in H; intuition discriminate.
Qed.

(** X14: the event loop handles what arrives in order and ends at the
    first failure, interrupt or cancellation.  After a script handled to
    its end (the world is the one its actions lead to, one after the
    other): when the connection raises [e], or the handler of the next
    event raises [e], the loop logs the error and raises [e]; when a
    [KeyboardInterrupt] is raised in the coroutine the loop logs it and
    returns normally; when the task is cancelled the loop ends with
    [CancelledError] and logs nothing.  In each case nothing that would
    have arrived afterwards is handled. *)
Theorem process_events_ends_at_failure
    (pre post : list Incoming) (w : World) :
  ~ In Interrupted pre ->
  outcome (_process_events pre) w = Return tt ->
  let w1 := exec (actions_of pre) w in
  _process_events pre w = (Return tt, w1) /\
  (forall e,
     _process_events (pre ++ ChannelFails e :: post) w =
     (Raise e, set_trace (trace w1 ++ [Log ERROR ("Error processing events: " ++ e)]) w1)) /\
  (forall env ev e,
     outcome (_handle_event env ev) w1 = Raise e ->
     let w2 := run (_handle_event env ev) w1 in
     _process_events (pre ++ Deliver env ev :: post) w =
     (Raise e, set_trace (trace w2 ++ [Log ERROR ("Error processing events: " ++ e)]) w2)) /\
  _process_events (pre ++ Interrupted :: post) w =
    (Return tt, set_trace (trace w1 ++ [Log INFO "Event processing interrupted"]) w1) /\
  _process_events (pre ++ Cancelled :: post) w = (Escape CancelledError, w1).
Proof.
  intros NI H. cbv zeta.
  assert (A : outcome (async_for pre) w = Return tt).
  { pose proof (@async_for_interrupt pre w) as K.
    unfold outcome in *. rewrite process_events_cases in H.
    destruct (async_for pre w) as [[[]|e|[]] w1]; cbn [fst] in *;
      try discriminate H; [reflexivity | exfalso; exact (NI (K eq_refl))]. }
  destruct (@async_for_app pre [] w A) as (R & _).
  split; [|split; [|split; [|split]]].
  - rewrite process_events_cases. unfold outcome, run in *.
    destruct (async_for pre w) as [[[]|e|[]] w1]; cbn [fst snd] in *;
      try discriminate A. now subst w1.
  - intros e. rewrite process_events_cases.
    rewrite (proj2 (@async_for_app pre (ChannelFails e :: post) w A)). reflexivity.
  - intros env ev e He. cbv zeta. rewrite process_events_cases.
    rewrite (proj2 (@async_for_app pre (Deliver env ev :: post) w A)).
    rewrite (@async_for_cons (Deliver env ev) (Handle env ev) post _ eq_refl).
    cbn [act]. unfold outcome, run in *.
    destruct (_handle_event env ev (exec (actions_of pre) w)) as [[[]|e1|b] w2];
      cbn [fst snd] in *; try discriminate He.
    inversion He. reflexivity.
  - rewrite process_events_cases.
    rewrite (proj2 (@async_for_app pre (Interrupted :: post) w A)). reflexivity.
  - rewrite process_events_cases.
    rewrite (proj2 (@async_for_app pre (Cancelled :: post) w A)). reflexivity.
Qed.

Lemma process_events_ends_at_failure_witness :
  let pre := [Deliver quiet (SESSION_UPDATED "sess_1");
              Meanwhile (CaptureTick 1 (inr [Byte.x4d; Byte.x61; Byte.x6e]));
              Meanwhile (SendTick 2 None);
              LoopTurn None] in
  let w1 := exec (actions_of pre) init_world in
  transmitted (trace w1) = ["TWFu"] /\
  _process_events (pre ++ [Cancelled; Deliver quiet RESPONSE_DONE]) init_world =
    (Escape CancelledError, w1).
Proof.
  cbv zeta. split; [vm_compute; reflexivity|].
  refine (proj2 (proj2 (proj2 (proj2
            (@process_events_ends_at_failure
               [Deliver quiet (SESSION_UPDATED "sess_1");
                Meanwhile (CaptureTick 1 (inr [Byte.x4d; Byte.x61; Byte.x6e]));
                Meanwhile (SendTick 2 None);
                LoopTurn None]
               [Deliver quiet RESPONSE_DONE] init_world _ _))))).
  - cbn [In]. intuition discriminate.
  - vm_compute. reflexivity.
Defined.

(** ** The run: set-up, event loop, cleanup *)

Lemma process_events_never_interrupt (script : list Incoming) (w : World) :
  outcome (_process_events script) w <> Escape KeyboardInterrupt.
Proof.
  unfold outcome. rewrite process_events_cases.
  destruct (async_for script w) as [[[]|e|[]] w1]; discriminate.
Qed.

Lemma act_keeps_audio_processor (a : Action) (w : World) :
  audio_processor (run (act a) w) = audio_processor w.
Proof.
  open_world w.
  destruct a as [env| |env|d| | |env ev|k|r]; try open_env env;
    try destruct ev; try destruct k; run_methods; reflexivity.
Qed.

Lemma exec_keeps_audio_processor (acts : list Action) (w : World) :
  audio_processor (exec acts w) = audio_processor w.
Proof.
  revert w. induction acts as [|a acts IH]; intros w; [reflexivity|].
  rewrite exec_cons, IH. apply act_keeps_audio_processor.
Qed.

(** What the event loop keeps, whatever arrives: the audio processor
    stays set, the two lines stay consistent, and the audio layer is not
    terminated. *)
Lemma process_events_keeps (script : list Incoming) (w : World) :
  let w1 := run (_process_events script) w in
  audio_processor w1 = audio_processor w /\
  (playback_ok w -> playback_ok w1) /\
  (transmit_idle_ok w -> transmit_idle_ok w1) /\
  exists d, trace w1 = trace w ++ d /\ ~ In Terminate d /\ ~ In ExecutorShutdown d.
Proof.
  cbv zeta.
  destruct (process_events_shape script w) as (acts & tail & I & T & R).
  rewrite R.
  destruct (set_trace_read (trace (exec acts w) ++ tail) (exec acts w))
    as (T1 & T2 & _ & _ & _ & T6).
  split; [|split; [|split]].
  - rewrite T6. apply exec_keeps_audio_processor.
  - intros P. unfold playback_ok. rewrite T2. exact (exec_playback_ok acts P).
  - intros P. unfold transmit_idle_ok. rewrite T2.
    exact (exec_transmit_idle_ok acts P).
  - destruct (@exec_no_terminate acts w (@actions_of_no_cleanup script acts I)) as (N1 & N2).
    exists (since w (exec acts w) ++ tail).
    pose proof (exec_extends acts w) as X. unfold extends in X.
    rewrite T1, X, <- app_assoc.
    split; [reflexivity|].
    assert (Q : forall x, is_report x = false -> ~ In x tail).
    { intros x Hx Hi. rewrite forallb_forall in T. specialize (T x Hi). congruence. }
    split; intros H; apply in_app_or in H; destruct H as [H|H];
      first [ tauto | exact (Q Terminate eq_refl H)
            | exact (Q ExecutorShutdown eq_refl H) ].
Qed.

Lemma cleanup_from (w : World) :
  playback_ok w ->
  transmit_idle_ok w ->
  let w1 := run cleanup w in
  outcome cleanup w = Return tt /\
  is_capturing (ap w1) = false /\
  is_playing (ap w1) = false /\
  audio_queue (ap w1) = [] /\
  audio_send_queue (ap w1) = [] /\
  since w w1 =
    since w (run stop_playback (run stop_capture w))
    ++ [Terminate; ExecutorShutdown; Log INFO "Audio processor cleaned up"] /\
  ~ In Terminate (since w (run stop_playback (run stop_capture w))).
Proof.
  unfold playback_ok, transmit_idle_ok. open_world w.
  cbv beta iota zeta delta [ap is_playing is_capturing audio_queue audio_send_queue].
  intros P Q.
  run_methods; read_trace; rewrite ?drain_nil; cbn [In];
    repeat split; auto; intuition discriminate.
Qed.

Ltac unfold_start :=
  cbv beta iota zeta delta
    [start new_audio_processor _setup_session connect_raises session_update_raises
     run outcome start_playback audio_open_output thread_start
     bind ret raise escape try_except try_except_interrupt
     self assign emit log print fresh fst snd
     negb andb
     open_input_raises start_stream_raises open_output_raises cancel_raises
     ap session_ready threads next_id trace scheduled audio_processor
     is_capturing is_playing input_stream output_stream audio_queue
     audio_send_queue capture_thread playback_thread send_thread loop
     set_is_capturing set_is_playing set_input_stream set_output_stream
     set_audio_queue set_audio_send_queue set_capture_thread
     set_playback_thread set_send_thread set_loop
     set_ap set_session_ready set_threads set_next_id set_trace
     set_scheduled set_audio_processor
     boot_world init_audio_processor ready_world].

(** When the set-up succeeds, [start] enters the event loop in
    [ready_world] and ends according to how the loop ends. *)
Lemma start_enters_loop
    (boot : Boot) (env : Env) (model v instr : string) (script : list Incoming) :
  connect_raises boot = None ->
  session_update_raises boot = None ->
  open_output_raises env = None ->
  start boot env model v instr script boot_world =
  match _process_events script (ready_world model v instr) with
  | (Return _, w1) => if audio_processor w1 then cleanup w1 else (Return tt, w1)
  | (Raise e, w1) =>
      (Raise e, set_trace (trace w1 ++ [Log ERROR ("Connection error: " ++ e)]) w1)
  | (Escape KeyboardInterrupt, w1) =>
      let w2 := set_trace (trace w1 ++ [Log INFO "Received interrupt signal, shutting down..."]) w1 in
      if audio_processor w2 then cleanup w2 else (Return tt, w2)
  | (Escape CancelledError, w1) => (Escape CancelledError, w1)
  end.
Proof.
  destruct boot as [c s]. open_env env.
  cbn [connect_raises session_update_raises open_output_raises].
  intros -> -> ->. unfold_start. cbn [app].
  match goal with
  | |- context [_process_events script ?W] =>
      destruct (_process_events script W) as [[[]|e|[]] w1]
  end;
    first [ reflexivity
          | destruct w1 as [a0 r0 t0 n0 tr0 s0 []]; reflexivity ].
Qed.

(** X15: how a run of the assistant ends once the set-up has succeeded.
    [start] enters the event loop in the world the set-up leaves, and:
    when the loop returns (the stream of events ends, or a
    [KeyboardInterrupt] is caught in it), [start] returns after [cleanup]
    has run on the world the loop left: both lines inactive, both queues
    empty, the audio layer terminated and the executor shut down, once and
    last; when the loop raises [e], [start] logs the connection error and
    raises [e], and no cleanup runs; when the task is cancelled, [start]
    ends with [CancelledError], logging nothing, and no cleanup runs: the
    audio layer is not terminated and the executor not shut down. *)
Theorem start_cleans_up_unless_it_raises
    (boot : Boot) (env : Env) (model v instr : string) (script : list Incoming) :
  connect_raises boot = None ->
  session_update_raises boot = None ->
  open_output_raises env = None ->
  let w1 := run (_process_events script) (ready_world model v instr) in
  let r := start boot env model v instr script boot_world in
  match outcome (_process_events script) (ready_world model v instr) with
  | Return _ =>
      r = (Return tt, run cleanup w1) /\
      is_capturing (ap (snd r)) = false /\
      is_playing (ap (snd r)) = false /\
      audio_queue (ap (snd r)) = [] /\
      audio_send_queue (ap (snd r)) = [] /\
      exists d,
        trace (snd r) =
          d ++ [Terminate; ExecutorShutdown; Log INFO "Audio processor cleaned up"] /\
        ~ In Terminate d
  | Raise e =>
      r = (Raise e, set_trace (trace w1 ++ [Log ERROR ("Connection error: " ++ e)]) w1) /\
      ~ In Terminate (trace (snd r)) /\
      ~ In ExecutorShutdown (trace (snd r))
  | Escape b =>
      b = CancelledError /\
      r = (Escape CancelledError, w1) /\
      ~ In Terminate (trace (snd r)) /\
      ~ In ExecutorShutdown (trace (snd r))
  end.
Proof.
  intros Hc Hs Ho. cbv zeta.
  rewrite (@start_enters_loop boot env model v instr script Hc Hs Ho).
  pose proof (@process_events_never_interrupt script (ready_world model v instr)) as NI.
  destruct (process_events_keeps script (ready_world model v instr))
    as (A & P & Q & d0 & N0 & N1 & N2).
  specialize (P (fun H => eq_refl)). specialize (Q (fun H => eq_refl)).
  assert (NW : ~ In Terminate (trace (ready_world model v instr)) /\
               ~ In ExecutorShutdown (trace (ready_world model v instr))).
  { cbn. split; intuition discriminate. }
  destruct NW as (NW1 & NW2).
  unfold outcome, run in *.
  destruct (_process_events script (ready_world model v instr)) as [[[]|e|b] w1];
    cbn [fst snd] in *.
  - change (audio_processor (ready_world model v instr)) with true in A.
    rewrite A.
    destruct (@cleanup_from w1 P Q) as (C1 & C2 & C3 & C4 & C5 & C6 & C7).
    pose proof (act_extends CallCleanup w1) as X. cbn [act] in X.
    unfold extends in X. rewrite C6 in X.
    unfold outcome, run in *.
    destruct (cleanup w1) as [o w2]; cbn [fst snd] in *. subst o.
    repeat (split; [first [reflexivity | assumption]|]).
    eexists. split; [rewrite X, app_assoc; reflexivity|].
    rewrite N0. intros I.
    apply in_app_or in I. destruct I as [I|I]; [|tauto].
    apply in_app_or in I. tauto.
  - destruct (set_trace_read (trace w1 ++ [Log ERROR ("Connection error: " ++ e)]) w1)
      as (T1 & _).
    cbn [snd]. rewrite T1, N0.
    repeat split; intros I;
      apply in_app_or in I; destruct I as [I|[I|[]]]; try discriminate I;
      apply in_app_or in I; tauto.
  - destruct b; [exfalso; exact (NI eq_refl)|].
    cbn [snd]. rewrite N0.
    repeat split; intros I; apply in_app_or in I; tauto.
Qed.

Lemma start_cleans_up_unless_it_raises_witness :
  let boot := {| connect_raises := None; session_update_raises := None |} in
  let script := [Deliver quiet (SESSION_UPDATED "sess_1");
                 Deliver quiet (RESPONSE_AUDIO_DELTA [Byte.x01]);
                 Cancelled] in
  let r := start boot quiet "gpt-4o" "alloy" "Be brief." script boot_world in
  fst r = Escape CancelledError /\
  is_capturing (ap (snd r)) = true /\
  is_playing (ap (snd r)) = true /\
  ~ In Terminate (trace (snd r)).
Proof.
  cbv zeta.
  pose proof (@start_cleans_up_unless_it_raises
                {| connect_raises := None; session_update_raises := None |}
                quiet "gpt-4o" "alloy" "Be brief."
                [Deliver quiet (SESSION_UPDATED "sess_1");
                 Deliver quiet (RESPONSE_AUDIO_DELTA [Byte.x01]);
                 Cancelled]
                eq_refl eq_refl eq_refl) as H.
  cbv zeta in H.
  change (outcome (_process_events
                     [Deliver quiet (SESSION_UPDATED "sess_1");
                      Deliver quiet (RESPONSE_AUDIO_DELTA [Byte.x01]);
                      Cancelled]) (ready_world "gpt-4o" "alloy" "Be brief."))
    with (@Escape unit CancelledError) in H.
  destruct H as (_ & H2 & H3 & _).
  split; [rewrite H2; reflexivity|].
  split; [vm_compute; reflexivity|].
  split; [vm_compute; reflexivity | exact H3].
Defined.

(** X16: when the connection cannot be established, the session cannot
    be configured, or the output device cannot be opened, [start] raises
    that very error before the event loop: no event is handled (the
    outcome and the world do not depend on what the connection would have
    delivered), no stream is open, no thread runs, and neither line is
    active. *)
Theorem start_fails_before_the_loop
    (boot : Boot) (env : Env) (model v instr : string)
    (script script' : list Incoming) (e : Exn) :
  connect_raises boot = Some e \/
  (connect_raises boot = None /\ session_update_raises boot = Some e) \/
  (connect_raises boot = None /\ session_update_raises boot = None /\
   open_output_raises env = Some e) ->
  let w' := run (start boot env model v instr script) boot_world in
  outcome (start boot env model v instr script) boot_world = Raise e /\
  start boot env model v instr script' boot_world =
    start boot env model v instr script boot_world /\
  is_capturing (ap w') = false /\
  is_playing (ap w') = false /\
  threads w' = [] /\
  opened (trace w') = [].
Proof.
  destruct boot as [c s]. open_env env.
  cbn [connect_raises session_update_raises open_output_raises].
  intros [H|[(H1 & H2)|(H1 & H2 & H3)]]; subst; cbv zeta;
    try destruct s; unfold_start; repeat split.
Qed.

Lemma start_fails_before_the_loop_witness :
  outcome (start {| connect_raises := Some "401 Unauthorized";
                    session_update_raises := None |}
                 quiet "gpt-4o" "alloy" "Be brief."
                 [Deliver quiet (SESSION_UPDATED "sess_1")]) boot_world
  = Raise "401 Unauthorized".
Proof.
  exact (proj1 (@start_fails_before_the_loop
                  {| connect_raises := Some "401 Unauthorized";
                     session_update_raises := None |}
                  quiet "gpt-4o" "alloy" "Be brief."
                  [Deliver quiet (SESSION_UPDATED "sess_1")] []
                  "401 Unauthorized" (or_introl eq_refl))).
Defined.

Example one_turn_and_interrupt :
  let script :=
    [Deliver quiet (SESSION_UPDATED "sess_1");
     Meanwhile (CaptureTick 3 (inr [Byte.x4d; Byte.x61; Byte.x6e]));
     Meanwhile (SendTick 4 None);
     LoopTurn None;
     Deliver nothing_to_cancel INPUT_AUDIO_BUFFER_SPEECH_STARTED;
     Deliver quiet INPUT_AUDIO_BUFFER_SPEECH_STOPPED;
     Deliver quiet RESPONSE_CREATED;
     Deliver quiet (RESPONSE_AUDIO_DELTA [Byte.x01]);
     Deliver quiet (RESPONSE_AUDIO_DELTA [Byte.x02]);
     Deliver quiet (RESPONSE_AUDIO_DELTA [Byte.x03]);
     Meanwhile (PlaybackTick 6 None);
     Meanwhile (PlaybackTick 6 None);
     Meanwhile (PlaybackTick 6 None);
     Deliver quiet RESPONSE_AUDIO_DONE;
     Deliver quiet RESPONSE_DONE;
     Interrupted] in
  let r := start {| connect_raises := None; session_update_raises := None |}
                 quiet "gpt-4o" "alloy" "Be brief." script boot_world in
  fst r = Return tt /\
  sent (trace (snd r)) = ["TWFu"] /\
  transmitted (trace (snd r)) = ["TWFu"] /\
  played (trace (snd r)) = [[Byte.x01]; [Byte.x02]; [Byte.x03]] /\
  cancels (trace (snd r)) = 1 /\
  opened (trace (snd r)) = [0; 2; 5].
Proof. vm_compute. auto 7. Qed.

(** The signal handler of [main] ends a run through the cancellation of
    the task: capture and playback are left running and the audio layer
    is not terminated. *)
Example cancelled_while_listening :
  let script :=
    [Deliver quiet (SESSION_UPDATED "sess_1");
     Meanwhile (CaptureTick 3 (inr [Byte.x4d; Byte.x61; Byte.x6e]));
     Cancelled] in
  let r := start {| connect_raises := None; session_update_raises := None |}
                 quiet "gpt-4o" "alloy" "Be brief." script boot_world in
  fst r = Escape CancelledError /\
  is_capturing (ap (snd r)) = true /\
  is_playing (ap (snd r)) = true /\
  threads (snd r) = [(1, PlaybackWorker); (3, CaptureWorker); (4, SendWorker)] /\
  existsb (fun e => match e with Terminate => true | _ => false end)
          (trace (snd r)) = false.
Proof. vm_compute. auto 6. Qed.

(** * Further properties of the transport encoding *)

Lemma char_of_in_alphabet (n : N) :
  (n < 64)%N -> In (Base64.char_of n) Base64.alphabet.
Proof.
  intros H. unfold Base64.char_of. apply nth_In.
  change (List.length Base64.alphabet) with 64. lia.
Qed.

Lemma b64encode_group (a b c : byte) (rest : bytes) :
  Base64.b64encode (a :: b :: c :: rest)
  = String (Base64.char_of (Base64.sextet0 (Byte.to_N a)))
      (String (Base64.char_of (Base64.sextet1 (Byte.to_N a) (Byte.to_N b)))
        (String (Base64.char_of (Base64.sextet2 (Byte.to_N b) (Byte.to_N c)))
          (String (Base64.char_of (Base64.sextet3 (Byte.to_N c)))
            (Base64.b64encode rest)))).
Proof. reflexivity. Qed.

Lemma sextet_chars (a b c : byte) :
  In (Base64.char_of (Base64.sextet0 (Byte.to_N a))) Base64.alphabet /\
  In (Base64.char_of (Base64.sextet1 (Byte.to_N a) (Byte.to_N b))) Base64.alphabet /\
  In (Base64.char_of (Base64.sextet1 (Byte.to_N a) 0)) Base64.alphabet /\
  In (Base64.char_of (Base64.sextet2 (Byte.to_N b) (Byte.to_N c))) Base64.alphabet /\
  In (Base64.char_of (Base64.sextet2 (Byte.to_N b) 0)) Base64.alphabet /\
  In (Base64.char_of (Base64.sextet3 (Byte.to_N c))) Base64.alphabet.
Proof.
  pose proof (to_N_lt a) as Ha. pose proof (to_N_lt b) as Hb.
  pose proof (to_N_lt c) as Hc.
  repeat split; apply char_of_in_alphabet.
  - exact (sextet0_lt Ha).
  - exact (sextet1_lt _ Hb).
  - exact (sextet1_lt _ zero_lt).
  - exact (sextet2_lt _ Hc).
  - exact (sextet2_lt _ zero_lt).
  - exact (sextet3_lt _).
Qed.

(** The shape of an encoding: [4 * ceil(n / 3)] characters for [n]
    bytes, characters of the alphabet followed by at most two padding
    signs, empty only for the empty byte string. *)
Lemma b64encode_shape (audio_data : bytes) :
  String.length (Base64.b64encode audio_data)
    = 4 * ((List.length audio_data + 2) / 3) /\
  (exists body tail,
     list_ascii_of_string (Base64.b64encode audio_data) = body ++ tail /\
     Forall (fun c => In c Base64.alphabet) body /\
     List.length tail <= 2 /\
     Forall (fun c => c = Base64.pad) tail) /\
  nonempty_str (Base64.b64encode audio_data) = nonempty_bytes audio_data.
Proof.
  induction audio_data as [|a|a b|a b c rest IH] using bytes_ind3.
  - repeat split. exists [], []. repeat split; auto.
  - destruct (sextet_chars a a a) as (H0 & _ & H1 & _).
    split; [reflexivity|]. split; [|reflexivity].
    eexists [_; _], [_; _]. split; [reflexivity|].
    split; [repeat (apply Forall_cons; [assumption|]); apply Forall_nil|].
    split; [simpl; lia | repeat (apply Forall_cons; [reflexivity|]); apply Forall_nil].
  - destruct (sextet_chars a b b) as (H0 & H1 & _ & _ & H2 & _).
    split; [reflexivity|]. split; [|reflexivity].
    eexists [_; _; _], [_]. split; [reflexivity|].
    split; [repeat (apply Forall_cons; [assumption|]); apply Forall_nil|].
    split; [simpl; lia | repeat (apply Forall_cons; [reflexivity|]); apply Forall_nil].
  - destruct (sextet_chars a b c) as (H0 & H1 & _ & H2 & _ & H3).
    destruct IH as (L & (body & tail & E & F & T & P) & _).
    rewrite b64encode_group.
    split; [|split; [|reflexivity]].
    + cbn [String.length List.length]. rewrite L.
      replace (S (S (S (List.length rest))) + 2)
        with (List.length rest + 2 + 1 * 3) by lia.
      rewrite Nat.div_add by discriminate. lia.
    + eexists (_ :: _ :: _ :: _ :: body), tail.
      cbn [list_ascii_of_string]. rewrite E.
      split; [reflexivity|].
      split; [repeat (apply Forall_cons; [assumption|]); exact F|].
      split; assumption.
Qed.

Lemma b64encode_well_formed (audio_data : bytes) :
  nonempty_bytes audio_data = true ->
  well_formed_payload (Base64.b64encode audio_data) = true.
Proof.
  intros H. destruct (b64encode_shape audio_data) as (L & (body & tail & E & F & _ & P) & N).
  unfold well_formed_payload. rewrite N, H, L, E.
  rewrite Nat.mul_comm, Nat.Div0.mod_mul. cbn [Nat.eqb andb].
  rewrite forallb_app. apply andb_true_intro. split; apply forallb_forall; intros c I.
  - rewrite Forall_forall in F. specialize (F c I).
    unfold base64_char. apply orb_true_intro. left.
    apply existsb_exists. exists c. split; [exact F | apply Ascii.eqb_refl].
  - rewrite Forall_forall in P. rewrite (P c I).
    unfold base64_char. apply orb_true_intro. right. apply Ascii.eqb_refl.
Qed.

Lemma act_payloads (a : Action) (w : World) :
  forallb well_formed_payload (audio_send_queue (ap w)) = true ->
  let w' := run (act a) w in
  forallb well_formed_payload (audio_send_queue (ap w')) = true /\
  forallb well_formed_payload (sent (since w w')) = true.
Proof.
  open_world w. cbn [ap audio_send_queue]. intros Hq.
  destruct a as [env| |env|d| | |env ev|k|r]; try open_env env;
    try destruct ev; try destruct k;
    run_methods; read_trace; rewrite ?drain_nil;
    cbn [sent flat_map app forallb] in *;
    try (apply andb_true_iff in Hq; destruct Hq as [Hp Hq]);
    rewrite ?forallb_app; cbn [forallb];
    rewrite ?Hq, ?Hp, ?b64encode_well_formed by reflexivity;
    split; reflexivity.
Qed.

(** X17: the service is never handed an empty or malformed audio
    payload.  At every point of every run, each payload waiting in the
    transmit queue and each payload handed to the connection so far is not
    empty, has a length that is a multiple of four, and consists of
    characters of the base64 alphabet and padding signs only; so the
    emptiness test of the send thread never drops a payload. *)
Theorem payloads_well_formed (acts : list Action) :
  let w := exec acts init_world in
  forallb well_formed_payload (audio_send_queue (ap w)) = true /\
  forallb well_formed_payload (sent (since init_world w)) = true.
Proof.
  cbv zeta.
  assert (G : forall w,
            forallb well_formed_payload (audio_send_queue (ap w)) = true ->
            forallb well_formed_payload (audio_send_queue (ap (exec acts w))) = true /\
            forallb well_formed_payload (sent (since w (exec acts w))) = true).
  { induction acts as [|a acts IH]; intros w H.
    - cbn [exec]. rewrite since_refl. split; [exact H | reflexivity].
    - rewrite exec_since, exec_cons.
      destruct (act_payloads a w H) as (Q1 & S1).
      destruct (IH _ Q1) as (Q2 & S2).
      split; [exact Q2|].
      rewrite sent_app, forallb_app, S1, S2. reflexivity. }
  apply G. reflexivity.
Qed.

Example payload_of_one_chunk :
  String.length (Base64.b64encode (repeat Byte.x00 2048)) = 2732.
Proof. vm_compute. reflexivity. Qed.

(** * The checks before the run *)

Lemma devices_with_nonempty (key : string) (devices : list DeviceInfo) :
  devices_with key devices <> [] <->
  exists info, In info devices /\ (0 < channels key info)%Z.
Proof.
  unfold devices_with. split.
  - intros H.
    destruct (filter _ _) as [|i l] eqn:E; [congruence|].
    assert (I : In i (i :: l)) by (left; reflexivity).
    rewrite <- E in I. apply filter_In in I. destruct I as (I1 & I2).
    apply in_seq in I1. apply Z.ltb_lt in I2.
    exists (nth i devices []). split; [apply nth_In; lia | exact I2].
  - intros (info & I & C) E.
    destruct (In_nth devices info ([] : DeviceInfo) I) as (i & Hi & Hn).
    assert (J : In i (filter (fun i => (0 <? channels key (nth i devices []))%Z)
                             (seq 0 (List.length devices)))).
    { apply filter_In. split; [apply in_seq; split; [apply Nat.le_0_l | exact Hi]|].
      cbv beta. rewrite Hn. now apply Z.ltb_lt. }
    rewrite E in J. exact J.
Qed.

Lemma channels_positive (key : string) (info : DeviceInfo) :
  (0 < channels key info)%Z <->
  exists n, dict_get key info = Some (Some n) /\ (0 < n)%Z.
Proof.
  unfold channels. split.
  - destruct (dict_get key info) as [[n|]|]; try lia.
    destruct (Z.eqb_spec n 0); [lia|]. intros H. now exists n.
  - intros (n & -> & H). destruct (Z.eqb_spec n 0); lia.
Qed.

Lemma missing_deps_eq (importable : string -> bool) :
  missing_deps importable
  = (if importable "pyaudio" then [] else ["pyaudio (Audio processing)"])
    ++ (if importable "azure.ai.voicelive" then []
        else ["azure.ai.voicelive (Azure VoiceLive SDK)"])
    ++ (if importable "azure.core" then []
        else ["azure.core (Azure Core libraries)"]).
Proof.
  unfold missing_deps, dependencies. cbn [flat_map fst snd].
  change (replace_hyphens "pyaudio") with "pyaudio".
  change (replace_hyphens "azure.ai.voicelive") with "azure.ai.voicelive".
  change (replace_hyphens "azure.core") with "azure.core".
  rewrite app_nil_r. reflexivity.
Qed.

(** X18: the program goes on to run the assistant exactly when the three
    required modules can be imported, PyAudio starts, some device has a
    positive [maxInputChannels] and some device a positive
    [maxOutputChannels] (a missing entry or [None] counts as zero);
    in every other case it exits with status 1.  The microphone is
    checked before the speakers: with no input device the message is the
    one about the microphone, whatever the output devices. *)
Theorem preflight_runs_iff_ready
    (importable : string -> bool) (audio : Exn + list DeviceInfo) :
  (preflight importable audio = RunAssistant <->
   importable "pyaudio" = true /\
   importable "azure.ai.voicelive" = true /\
   importable "azure.core" = true /\
   exists devices,
     audio = inr devices /\
     (exists info n, In info devices /\
        dict_get "maxInputChannels" info = Some (Some n) /\ (0 < n)%Z) /\
     (exists info n, In info devices /\
        dict_get "maxOutputChannels" info = Some (Some n) /\ (0 < n)%Z)) /\
  (preflight importable audio = RunAssistant \/
   exists printed, preflight importable audio = Exit 1 printed) /\
  (forall devices,
     importable "pyaudio" = true ->
     importable "azure.ai.voicelive" = true ->
     importable "azure.core" = true ->
     audio = inr devices ->
     input_devices devices = [] ->
     preflight importable audio =
       Exit 1 ["No audio input devices found. Please check your microphone."]).
Proof.
  assert (R : forall devices,
            audio_check (inr devices) = RunAssistant <->
            (exists info n, In info devices /\
               dict_get "maxInputChannels" info = Some (Some n) /\ (0 < n)%Z) /\
            (exists info n, In info devices /\
               dict_get "maxOutputChannels" info = Some (Some n) /\ (0 < n)%Z)).
  { intros devices.
    pose proof (devices_with_nonempty "maxInputChannels" devices) as I.
    pose proof (devices_with_nonempty "maxOutputChannels" devices) as O.
    unfold audio_check, input_devices, output_devices.
    assert (X : forall key,
              (exists info, In info devices /\ (0 < channels key info)%Z) <->
              (exists info n, In info devices /\
                 dict_get key info = Some (Some n) /\ (0 < n)%Z)).
    { intros key. split.
      - intros (info & H1 & H2). apply channels_positive in H2.
        destruct H2 as (n & H2 & H3). now exists info, n.
      - intros (info & n & H1 & H2 & H3). exists info. split; [exact H1|].
        apply channels_positive. now exists n. }
    rewrite <- !X, <- I, <- O.
    destruct (devices_with "maxInputChannels" devices);
      destruct (devices_with "maxOutputChannels" devices);
      split; try discriminate; try (intros [H1 H2]; congruence);
      intros _; split; discriminate. }
  unfold preflight. rewrite missing_deps_eq.
  destruct (importable "pyaudio"), (importable "azure.ai.voicelive"),
    (importable "azure.core"); cbn [app map].
  1: { split; [|split].
       - split.
         + intros H. repeat (split; [reflexivity|]).
           destruct audio as [e|devices]; [simpl in H; discriminate H|].
           exists devices. split; [reflexivity|]. now apply R.
         + intros (_ & _ & _ & devices & -> & H). now apply R.
       - destruct audio as [e|devices]; cbn; [right; eauto|].
         destruct (input_devices devices); [right; eauto|].
         destruct (output_devices devices); [right; eauto | left; reflexivity].
       - intros devices _ _ _ -> E. cbn. now rewrite E. }
  all: split; [split; [discriminate | intros (H1 & H2 & H3 & _); discriminate]|];
    split; [right; eauto | intros; discriminate].
Qed.

Lemma preflight_runs_iff_ready_witness :
  preflight (fun _ => true)
    (inr [[("name", None); ("maxInputChannels", Some 0%Z);
           ("maxOutputChannels", Some 2%Z)]])
  = Exit 1 ["No audio input devices found. Please check your microphone."].
Proof.
  exact (proj2 (proj2 (preflight_runs_iff_ready (fun _ => true)
                  (inr [[("name", None); ("maxInputChannels", Some 0%Z);
                         ("maxOutputChannels", Some 2%Z)]])))
               _ eq_refl eq_refl eq_refl eq_refl eq_refl).
Defined.

(** * Nothing is captured before the session is confirmed *)

(** Actions that do not start the capture line. *)
Lemma act_off_microphone (a : Action) (w : World) :
  is_capturing (ap w) = false ->
  scheduled w = [] ->
  match a with
  | CallStartCapture _ | Handle _ (SESSION_UPDATED _) => False
  | _ => True
  end ->
  let w' := run (act a) w in
  is_capturing (ap w') = false /\
  scheduled w' = [] /\
  session_ready w' = session_ready w /\
  existsb uses_microphone (since w w') = false.
Proof.
  open_world w. cbn [ap is_capturing scheduled session_ready]. intros -> -> Ha.
  destruct a as [env| |env|d| | |env ev|k|r]; try open_env env;
    try destruct ev; try destruct k; try contradiction; clear Ha;
    run_methods; read_trace; repeat split.
Qed.

Lemma exec_off_microphone (acts : list Action) (w : World) :
  is_capturing (ap w) = false ->
  scheduled w = [] ->
  (forall a, In a acts ->
             match a with
             | CallStartCapture _ | Handle _ (SESSION_UPDATED _) => False
             | _ => True
             end) ->
  let w' := exec acts w in
  is_capturing (ap w') = false /\
  scheduled w' = [] /\
  session_ready w' = session_ready w /\
  existsb uses_microphone (since w w') = false.
Proof.
  revert w. induction acts as [|a acts IH]; intros w Hc Hs Ha; cbv zeta.
  - cbn. rewrite since_refl. auto.
  - rewrite exec_since, exec_cons.
    destruct (@act_off_microphone a w Hc Hs (Ha a (or_introl eq_refl)))
      as (C1 & S1 & R1 & M1).
    destruct (IH _ C1 S1 (fun x Hx => Ha x (or_intror Hx))) as (C2 & S2 & R2 & M2).
    rewrite existsb_app, M1, M2, R2, R1. auto.
Qed.

Lemma cleanup_off_microphone (w : World) :
  is_capturing (ap w) = false ->
  let w' := run cleanup w in
  is_capturing (ap w') = false /\
  session_ready w' = session_ready w /\
  existsb uses_microphone (since w w') = false.
Proof.
  open_world w. cbn [ap is_capturing session_ready]. intros ->.
  run_methods; read_trace; repeat split.
Qed.

Lemma actions_of_no_session (script : list Incoming) (acts : list Action) :
  existsb is_session_updated script = false ->
  incl acts (actions_of script) ->
  forall a, In a acts ->
            match a with
            | CallStartCapture _ | Handle _ (SESSION_UPDATED _) => False
            | _ => True
            end.
Proof.
  intros Hs Hincl a Ha. apply Hincl in Ha. unfold actions_of in Ha.
  apply in_flat_map in Ha. destruct Ha as (i & Hi & Ha).
  assert (N : is_session_updated i = false).
  { destruct (is_session_updated i) eqn:E; [|reflexivity].
    assert (X : existsb is_session_updated script = true)
      by (apply existsb_exists; exists i; auto).
    congruence. }
  destruct i as [env ev|k|r| | |e0]; cbn in Ha;
    try (destruct Ha as [<-|[]]); try contradiction; try exact I.
  destruct ev; try exact I. discriminate N.
Qed.

Lemma process_events_off_microphone (script : list Incoming) (w : World) :
  is_capturing (ap w) = false ->
  scheduled w = [] ->
  existsb is_session_updated script = false ->
  let w' := run (_process_events script) w in
  is_capturing (ap w') = false /\
  session_ready w' = session_ready w /\
  exists d, trace w' = trace w ++ d /\ existsb uses_microphone d = false.
Proof.
  intros Hc Hs Hn. cbv zeta.
  destruct (process_events_shape script w) as (acts & tail & I & T & R).
  rewrite R.
  destruct (set_trace_read (trace (exec acts w) ++ tail) (exec acts w))
    as (T1 & T2 & T3 & _).
  destruct (@exec_off_microphone acts w Hc Hs (@actions_of_no_session script acts Hn I))
    as (C & _ & S & M).
  rewrite T1, T2, T3. split; [exact C|]. split; [exact S|].
  exists (since w (exec acts w) ++ tail).
  pose proof (exec_extends acts w) as X. unfold extends in X.
  rewrite X at 1. rewrite <- app_assoc. split; [reflexivity|].
  rewrite existsb_app, M. cbn [orb].
  destruct (existsb uses_microphone tail) eqn:E; [|reflexivity].
  apply existsb_exists in E. destruct E as (x & Hx & Ux).
  rewrite forallb_forall in T. specialize (T x Hx).
  destruct x; discriminate.
Qed.

(** X19: the microphone is not used before the service confirms the
    session.  In a run of the assistant in which no SessionUpdated event
    arrives, the input device is never opened, no frame is read from it,
    nothing is appended to the input buffer of the service, and the
    session is not marked ready: whatever else arrives, whatever the
    worker threads do in between, and whether the run returns or raises. *)
Theorem no_capture_before_session_updated
    (boot : Boot) (env : Env) (model v instr : string) (script : list Incoming) :
  existsb is_session_updated script = false ->
  let w' := run (start boot env model v instr script) boot_world in
  existsb uses_microphone (trace w') = false /\
  session_ready w' = false /\
  is_capturing (ap w') = false.
Proof.
  intros Hs. cbv zeta.
  destruct boot as [[e1|] [e2|]]; open_env env; destruct open_out as [e3|].
  1-7: unfold_start; repeat split.
  unfold run.
  rewrite (@start_enters_loop
             {| connect_raises := None; session_update_raises := None |}
             {| open_input_raises := open_in; start_stream_raises := start_in;
                open_output_raises := None; cancel_raises := cancel_out |}
             model v instr script eq_refl eq_refl eq_refl).
  pose proof (@process_events_never_interrupt script (ready_world model v instr)) as NI.
  destruct (@process_events_off_microphone script (ready_world model v instr)
              eq_refl eq_refl Hs) as (C & R & d & E & M).
  destruct (process_events_keeps script (ready_world model v instr)) as (A & _).
  change (audio_processor (ready_world model v instr)) with true in A.
  change (session_ready (ready_world model v instr)) with false in R.
  assert (M0 : existsb uses_microphone (trace (ready_world model v instr)) = false)
    by reflexivity.
  unfold outcome, run in *.
  destruct (_process_events script (ready_world model v instr)) as [[[]|e|b] w1];
    cbn [fst snd] in *.
  - rewrite A.
    destruct (cleanup_off_microphone w1 C) as (C2 & R2 & M2).
    pose proof (act_extends CallCleanup w1) as X. unfold extends in X. cbn [act] in X.
    unfold run in *. destruct (cleanup w1) as [o w2]; cbn [fst snd] in *.
    split; [|split; [congruence | exact C2]].
    rewrite X, E, !existsb_app, M0, M, M2. reflexivity.
  - destruct (set_trace_read (trace w1 ++ [Log ERROR ("Connection error: " ++ e)]) w1)
      as (T1 & T2 & T3 & _).
    rewrite T1, T2, T3. split; [|split; [exact R | exact C]].
    rewrite E, !existsb_app, M0, M. reflexivity.
  - destruct b; [exfalso; exact (NI eq_refl)|]. cbn [snd].
    split; [|split; [exact R | exact C]].
    rewrite E, !existsb_app, M0, M. reflexivity.
Qed.

Lemma no_capture_before_session_updated_witness :
  let w' :=
    run (start {| connect_raises := None; session_update_raises := None |}
               quiet "gpt-4o" "alloy" "Be brief."
               [Deliver quiet INPUT_AUDIO_BUFFER_SPEECH_STARTED;
                Meanwhile (CaptureTick 0 (inr [Byte.x01]));
                Deliver quiet (RESPONSE_AUDIO_DELTA [Byte.x02]);
                Interrupted])
        boot_world in
  existsb uses_microphone (trace w') = false /\
  session_ready w' = false /\
  is_capturing (ap w') = false.
Proof.
  apply no_capture_before_session_updated. reflexivity.
Defined.
